(** * A shallow embedding of [streaming-data-pipeline.py]

    The pipeline keeps a handful of process-wide accumulators (a HyperLogLog,
    a Count-Min sketch, two bounded deques and Welford's running moments),
    folds batches of events into them ([process_batch]) and forms the batches
    in a size-or-time triggered loop ([subscriber]).

    Python values are embedded as follows:
    - [float]  : Rocq's primitive binary64 floats, the very type Python uses;
    - [int]    : [Z] (lengths and multiplicities, which are never negative,
                 are [nat]);
    - [str]    : [string];
    - [deque]  : a record with the optional bound and the items, oldest first;
    - [Counter]: an association list in insertion order, as the dict behind a
                 [Counter] iterates;
    - exceptions: the error side of [result].

    The clock is a function from the number of [time.time()] calls made so
    far to the reading returned; the formatting and printing of the summary,
    [time.strftime] included, is left out, as are [publisher] and
    [log_queue_size], which only feed and watch the queue. *)

From Stdlib Require Import Strings.String Numbers.DecimalString.
From Stdlib Require Import ZArith List Bool Lia.
From Stdlib Require Import Sorting.Sorted.
From Stdlib Require Import Floats.PrimFloat Floats.FloatOps Floats.SpecFloat.
Import ListNotations.

Set Implicit Arguments.

(** ** Exceptions *)

Inductive exn : Type :=
| ZeroDivisionError
| ValueError
| OverflowError
| IndexError.

Inductive result (A : Type) : Type :=
| Ok (a : A)
| Raise (e : exn).

Arguments Ok {A} a.
Arguments Raise {A} e.

Definition bind {A B : Type} (r : result A) (k : A -> result B) : result B :=
  match r with
  | Ok a => k a
  | Raise e => Raise e
  end.

Notation "x <- r ;; k" := (bind r (fun x => k))
  (at level 61, r at next level, right associativity).
Notation "' p <- r ;; k" := (bind r (fun x => let p := x in k))
  (at level 61, p pattern, r at next level, right associativity).

Definition result_map {A B : Type} (f : A -> B) (r : result A) : result B :=
  x <- r ;; Ok (f x).

(** [[f(x) for x in xs]] for an [f] that may raise: left to right, the first
    exception wins. *)
Fixpoint mapM {A B : Type} (f : A -> result B) (xs : list A) : result (list B) :=
  match xs with
  | [] => Ok []
  | x :: xs' => y <- f x ;; ys <- mapM f xs' ;; Ok (y :: ys)
  end.

(** [for x in xs: st = f(x, st)], stopping at the first exception. *)
Fixpoint foldM {A S : Type} (f : A -> S -> result S) (xs : list A) (st : S)
  : result S :=
  match xs with
  | [] => Ok st
  | x :: xs' => st' <- f x st ;; foldM f xs' st'
  end.

(** ** Python's numbers *)

(** [float(z)] for a Python int: the nearest binary64, ties to even. *)
Definition float_of_Z (z : Z) : float :=
  SF2Prim (binary_normalize prec emax z 0 false).

(** [x / d] for a float [x] and an int [d]: the int is converted to a float
    and the quotient is IEEE division, except that a zero divisor raises.
    The divisors of the script are event counts; an int of magnitude 2^1024
    or more, which Python refuses to convert, is outside the model. *)
Definition py_truediv (x : float) (d : Z) : result float :=
  if (d =? 0)%Z then Raise ZeroDivisionError
  else Ok (PrimFloat.div x (float_of_Z d)).

(** The integer nearest to [m * 2^e], ties to the even one. *)
Definition round_half_even (m : positive) (e : Z) : Z :=
  match e with
  | Zneg k =>
      let d := Z.pow_pos 2 k in
      let q := (Zpos m / d)%Z in
      let r := (Zpos m mod d)%Z in
      match (2 * r ?= d)%Z with
      | Lt => q
      | Gt => (q + 1)%Z
      | Eq => if Z.even q then q else (q + 1)%Z
      end
  | _ => (Zpos m * 2 ^ e)%Z
  end.

(** The builtin [round(x)] on a float: an int, ties to even; [nan] and the
    infinities raise. *)
Definition py_round (x : float) : result Z :=
  match Prim2SF x with
  | S754_nan => Raise ValueError
  | S754_infinity _ => Raise OverflowError
  | S754_zero _ => Ok 0%Z
  | S754_finite s m e =>
      let r := round_half_even m e in
      Ok (if s then (- r)%Z else r)
  end.

(** [str(z)] for an int: its decimal numeral.  CPython refuses to print an
    int of more than [int_max_str_digits] digits; the model covers the ints
    within that limit, see [str_fits]. *)
Definition py_str (z : Z) : string :=
  NilZero.string_of_int (Z.to_int z).

(** The default of [sys.get_int_max_str_digits()]. *)
Definition int_max_str_digits : nat := 4300.

(** Whether [str(z)] returns: [z] has at most [int_max_str_digits] digits,
    the sign not counted. *)
Definition str_fits (z : Z) : bool :=
  (String.length (py_str (Z.abs z)) <=? int_max_str_digits)%nat.

(** ** [collections.deque] *)

Record deque (A : Type) : Type := mk_deque {
  maxlen : option nat;
  deque_items : list A
}.

Definition deque_new {A : Type} (bound : option nat) : deque A :=
  {| maxlen := bound; deque_items := [] |}.

(** [d.append(x)]: the item goes to the right end; a bounded deque that
    thereby exceeds its bound drops its leftmost item. *)
Definition deque_append {A : Type} (d : deque A) (x : A) : deque A :=
  let items' := deque_items d ++ [x] in
  match maxlen d with
  | None => {| maxlen := None; deque_items := items' |}
  | Some m =>
      {| maxlen := Some m;
         deque_items := if (m <? length items')%nat then tl items' else items' |}
  end.

(** [list(d)]: the contents, oldest first. *)
Definition snapshot {A : Type} (d : deque A) : list A := deque_items d.

(** A run of [append] calls, one per item, in order. *)
Definition push_all {A : Type} (d : deque A) (xs : list A) : deque A :=
  fold_left deque_append xs d.

(** ** [collections.Counter] *)

(** A [Counter] is a dict from items to multiplicities; a dict iterates in
    insertion order, so it is kept as an association list in that order. *)
Definition counter : Type := list (Z * nat).

(** [c[b] = c.get(b, 0) + 1]: an existing key keeps its place, a new key goes
    to the end. *)
Fixpoint counter_incr (c : counter) (b : Z) : counter :=
  match c with
  | [] => [(b, 1%nat)]
  | (k, v) :: c' =>
      if (k =? b)%Z then (k, S v) :: c' else (k, v) :: counter_incr c' b
  end.

(** [c.get(b, 0)] *)
Fixpoint counter_get (c : counter) (b : Z) : nat :=
  match c with
  | [] => 0
  | (k, v) :: c' => if (k =? b)%Z then v else counter_get c' b
  end.

(** [Counter(bs)]: the items are counted from left to right. *)
Definition Counter (bs : list Z) : counter :=
  fold_left counter_incr bs [].

(** One step of a stable descending sort on the multiplicity: [x], which
    stood before every entry of [l] in the original order, goes in front of
    the first entry whose multiplicity is not larger than its own. *)
Fixpoint insert_desc (x : Z * nat) (l : counter) : counter :=
  match l with
  | [] => [x]
  | y :: l' =>
      if (snd x <? snd y)%nat then y :: insert_desc x l' else x :: y :: l'
  end.

(** [sorted(c.items(), key=itemgetter(1), reverse=True)]: Python's sort is
    stable, also under [reverse=True], so entries of equal multiplicity keep
    their order in [c]. *)
Fixpoint sorted_desc (c : counter) : counter :=
  match c with
  | [] => []
  | x :: c' => insert_desc x (sorted_desc c')
  end.

(** [c.most_common(k)] is [heapq.nlargest(k, c.items(), key=itemgetter(1))],
    which the library documents as [sorted(..., reverse=True)[:k]]. *)
Definition most_common (k : nat) (c : counter) : counter :=
  firstn k (sorted_desc c).

(** The position of the first occurrence of [b] in [bs] ([length bs] when
    there is none). *)
Fixpoint first_index (b : Z) (bs : list Z) : nat :=
  match bs with
  | [] => 0
  | x :: bs' => if (x =? b)%Z then 0 else S (first_index b bs')
  end.

(** [b1] is first seen before [b2] in [bs]. *)
Definition seen_before (bs : list Z) (b1 b2 : Z) : Prop :=
  (first_index b1 bs < first_index b2 bs)%nat.

(** [b1] ranks before [b2] among the buckets [bs]: it is more frequent, or as
    frequent and seen first. *)
Definition ranks_before (bs : list Z) (b1 b2 : Z) : Prop :=
  (count_occ Z.eq_dec bs b2 < count_occ Z.eq_dec bs b1)%nat \/
  (count_occ Z.eq_dec bs b1 = count_occ Z.eq_dec bs b2 /\
   seen_before bs b1 b2).

(** The order a stable descending sort on the multiplicity produces from a
    list whose entries stand in the order [tie]. *)
Definition sorted_order (tie : Z * nat -> Z * nat -> Prop)
           (x y : Z * nat) : Prop :=
  (snd y < snd x)%nat \/ (snd x = snd y /\ tie x y).

(** What [Counter(pre)] must look like: the keys are the items of [pre] in
    the order of their first occurrence, with their multiplicities. *)
Definition counts (pre : list Z) (c : counter) : Prop :=
  StronglySorted (seen_before pre) (map fst c) /\
  (forall k, In k (map fst c) <-> In k pre) /\
  (forall k, counter_get c k = count_occ Z.eq_dec pre k).

(** ** The frequency sketch *)

Module FrequencySketch.

(** The largest value of a signed 32-bit counter. *)
Definition INT32_MAX : Z := 2147483647.

(** Modelled from the spec: the Count-Min sketch behind [cms] is the class
    [CountMinSketch] of the package [probables], whose code is not part of
    the sources.  The model follows section 4.5 of the specification: a
    [depth] by [width] array of counters; [add] increments, in every row,
    the cell its hash function selects; [estimate] is the minimum of those
    cells.  The hash functions are a parameter ([hash i] is the function of
    row [i]).  The specification gives the counters a bounded integer type
    and leaves open what happens at the bound; the cells of the library class
    are signed 32-bit counters that stop at [INT32_MAX], and so are these. *)
Record t : Type := mk {
  width : nat;
  depth : nat;
  bins : list (list Z)
}.

Definition new (w d : nat) : t :=
  {| width := w; depth := d; bins := repeat (repeat 0%Z w) d |}.

Section Hashed.
Variable hash : nat -> string -> nat.

Definition cell (s : t) (i : nat) (key : string) : nat :=
  hash i key mod width s.

(** [row[j] += 1], stopping at [INT32_MAX]; a position past the end leaves
    the row as it is. *)
Fixpoint bump (row : list Z) (j : nat) : list Z :=
  match row, j with
  | [], _ => []
  | c :: row', O => Z.min (c + 1) INT32_MAX :: row'
  | c :: row', S j' => c :: bump row' j'
  end.

Fixpoint add_rows (s : t) (key : string) (i : nat) (rows : list (list Z))
  : list (list Z) :=
  match rows with
  | [] => []
  | row :: rows' =>
      bump row (cell s i key) :: add_rows s key (S i) rows'
  end.

(** Modelled from the spec: [add(key)] increments, in each of the [depth]
    rows, the cell the row's hash function selects; a cell at [INT32_MAX]
    stays there. *)
Definition add (s : t) (key : string) : t :=
  {| width := width s; depth := depth s;
     bins := add_rows s key 0 (bins s) |}.

Fixpoint row_values (s : t) (key : string) (i : nat) (rows : list (list Z))
  : list Z :=
  match rows with
  | [] => []
  | row :: rows' =>
      nth (cell s i key) row 0%Z :: row_values s key (S i) rows'
  end.

(** Modelled from the spec: [estimate(key)] is the minimum of the cells of
    [key], one per row. *)
Definition estimate (s : t) (key : string) : Z :=
  match row_values s key 0 (bins s) with
  | [] => 0%Z
  | v :: vs => fold_left Z.min vs v
  end.

Definition add_all (s : t) (keys : list string) : t :=
  fold_left add keys s.

End Hashed.

End FrequencySketch.

(** ** The pipeline *)

Open Scope float_scope.

Definition MAX_WINDOW_SIZE : nat := 1000.
Definition BATCH_SIZE : nat := 100.
Definition MAX_DELAY : float := 0.5.

(** An event as [publisher] builds it. *)
Record Event : Type := mk_event {
  user_id : Z;
  value : float;
  timestamp : float
}.

(** What [process_batch] reports, before formatting. *)
Record BatchSummary : Type := mk_summary {
  events_processed : Z;
  unique_users : Z;
  frequency_of_123 : Z;
  top_items : counter;
  rolling_mean : float;
  variance : float;
  p50 : float;
  p95 : float;
  p99 : float
}.

(** The libraries the script imports and whose code is not part of it:
    [datasketch.HyperLogLog] with [update] and [len], the hash functions of
    [probables.CountMinSketch], and [numpy.percentile] on an array that is
    not empty (see [percentile] for the empty one). *)
Class Libraries : Type := {
  HyperLogLog : Type;
  hll_new : HyperLogLog;
  hll_update : HyperLogLog -> string -> HyperLogLog;
  hll_len : HyperLogLog -> Z;
  cms_hash : nat -> string -> nat;
  np_percentile : list float -> float -> float
}.

Section Pipeline.

Context {L : Libraries}.

(** The module-level state of the script, together with the number of
    [time.time()] calls made so far. *)
Record World : Type := mk_world {
  ticks : nat;
  hll : HyperLogLog;
  cms : FrequencySketch.t;
  value_window : deque float;
  latency_window : deque float;
  n : Z;
  mean : float;
  M2 : float
}.

(** The state the module body sets up. *)
Definition fresh (t : nat) : World :=
  {| ticks := t;
     hll := hll_new;
     cms := FrequencySketch.new 1000 5;
     value_window := deque_new (Some MAX_WINDOW_SIZE);
     latency_window := deque_new (Some MAX_WINDOW_SIZE);
     n := 0;
     mean := 0;
     M2 := 0 |}.

Section Clocked.

(** [clock k] is what the [k]-th call of [time.time()] returns. *)
Variable clock : nat -> float.

(** The body of the loop of [process_batch]. *)
Definition process_event (event : Event) (w : World) : result World :=
  let uid := py_str (user_id event) in
  let v := value event in
  let latency := clock (ticks w) - timestamp event in
  let hll' := hll_update (hll w) uid in
  let cms' := FrequencySketch.add cms_hash (cms w) uid in
  let value_window' := deque_append (value_window w) v in
  let latency_window' := deque_append (latency_window w) latency in
  let n' := (n w + 1)%Z in
  let delta := v - mean w in
  q <- py_truediv delta n' ;;
  let mean' := mean w + q in
  let M2' := M2 w + delta * (v - mean') in
  Ok {| ticks := S (ticks w);
        hll := hll';
        cms := cms';
        value_window := value_window';
        latency_window := latency_window';
        n := n';
        mean := mean';
        M2 := M2' |}.

(** [M2 / (n - 1) if n > 1 else 0] *)
Definition variance_of (w : World) : result float :=
  if (1 <? n w)%Z then py_truediv (M2 w) (n w - 1) else Ok 0.

(** [Counter([round(v) for v in value_window]).most_common(3)] *)
Definition top_buckets (w : World) : result counter :=
  buckets <- mapM py_round (snapshot (value_window w)) ;;
  Ok (most_common 3 (Counter buckets)).

(** [np.percentile(latencies, q)]: numpy raises [IndexError] on an empty
    array and computes on any other. *)
Definition percentile (latencies : list float) (q : float) : result float :=
  match latencies with
  | [] => Raise IndexError
  | _ :: _ => Ok (np_percentile latencies q)
  end.

(** What [process_batch] does once its loop is over: the values it prints,
    computed in the order of the [print] calls. *)
Definition summarise (w : World) : result BatchSummary :=
  top <- top_buckets w ;;
  var <- variance_of w ;;
  let latencies := snapshot (latency_window w) in
  q50 <- percentile latencies 50 ;;
  q95 <- percentile latencies 95 ;;
  q99 <- percentile latencies 99 ;;
  Ok {| events_processed := n w;
        unique_users := hll_len (hll w);
        frequency_of_123 :=
          FrequencySketch.estimate cms_hash (cms w) "123";
        top_items := top;
        rolling_mean := mean w;
        variance := var;
        p50 := q50 * 1000;
        p95 := q95 * 1000;
        p99 := q99 * 1000 |}.

Definition process_batch (events : list Event) (w : World)
  : result (BatchSummary * World) :=
  w' <- foldM process_event events w ;;
  s <- summarise w' ;;
  Ok (s, w').

(** The local variables of [subscriber]. *)
Record SubState : Type := mk_sub {
  buffer : list Event;
  start : float
}.

(** What [asyncio.wait_for(queue.get(), timeout=MAX_DELAY)] did. *)
Inductive Taken : Type :=
| Got (event : Event)
| TimedOut.

Definition time_time (w : World) : float * World :=
  (clock (ticks w),
   {| ticks := S (ticks w); hll := hll w; cms := cms w;
      value_window := value_window w;
      latency_window := latency_window w;
      n := n w; mean := mean w; M2 := M2 w |}).

(** [process_batch(buffer); buffer.clear(); start = time.time()] *)
Definition flush (buf : list Event) (w : World)
  : result (SubState * World) :=
  '(_, w1) <- process_batch buf w ;;
  let (now, w2) := time_time w1 in
  Ok ({| buffer := []; start := now |}, w2).

(** One turn of the loop of [subscriber].  The first component is the
    batch handed to [process_batch] in this turn, if any; the second is
    the state the turn leaves, or the exception that ends the loop. *)
Definition subscriber_iter (t : Taken) (s : SubState) (w : World)
  : option (list Event) * result (SubState * World) :=
  match t with
  | Got event =>
      let buffer' := buffer s ++ [event] in
      if (BATCH_SIZE <=? length buffer')%nat then
        (Some buffer', flush buffer' w)
      else
        let (now, w0) := time_time w in
        if MAX_DELAY <=? now - start s then
          (Some buffer', flush buffer' w0)
        else
          (None, Ok ({| buffer := buffer'; start := start s |}, w0))
  | TimedOut =>
      match buffer s with
      | [] => (None, Ok (s, w))
      | _ :: _ => (Some (buffer s), flush (buffer s) w)
      end
  end.

(** [buffer = []; start = time.time()] *)
Definition subscriber_init (w : World) : SubState * World :=
  let (now, w0) := time_time w in
  ({| buffer := []; start := now |}, w0).

(** The loop of [subscriber] over the outcomes of its first
    [length takes] calls of [wait_for]: the batches handed to
    [process_batch], in order, and the state reached. *)
Fixpoint subscriber_loop (takes : list Taken) (s : SubState) (w : World)
  : list (list Event) * result (SubState * World) :=
  match takes with
  | [] => ([], Ok (s, w))
  | t :: takes' =>
      match subscriber_iter t s w with
      | (flushed, Ok (s', w')) =>
          let (batches, r) := subscriber_loop takes' s' w' in
          (match flushed with
           | Some b => b :: batches
           | None => batches
           end, r)
      | (flushed, Raise e) =>
          (match flushed with Some b => [b] | None => [] end, Raise e)
      end
  end.

Definition subscriber (takes : list Taken) (w : World)
  : list (list Event) * result (SubState * World) :=
  let (s, w0) := subscriber_init w in
  subscriber_loop takes s w0.

End Clocked.

End Pipeline.

(** ** A concrete stand-in for the libraries

    Used to run the model on concrete inputs only: the distinct keys are kept
    exactly, a key is hashed to its length plus the row number, and the
    percentile is replaced by the oldest item.  No statement below depends on
    these choices. *)
Definition demo_libraries : Libraries :=
  {| HyperLogLog := list string;
     hll_new := [];
     hll_update := fun h k =>
       if in_dec string_dec k h then h else k :: h;
     hll_len := fun h => Z.of_nat (length h);
     cms_hash := fun i k => (i + String.length k)%nat;
     np_percentile := fun xs _ => hd 0 xs |}.

(** The unclamped latencies of a batch whose first event is handled at the
    [t]-th reading of the clock. *)
Fixpoint latencies_of (clock : nat -> float) (t : nat) (events : list Event)
  : list float :=
  match events with
  | [] => []
  | e :: events' =>
      (clock t - timestamp e) :: latencies_of clock (S t) events'
  end.

(** The flush rule in the words of the specification, for a buffer of [size]
    events whose first item came [elapsed] seconds ago. *)
Definition spec_flush_rule (size : nat) (elapsed : float) (timed_out : bool)
  : bool :=
  (BATCH_SIZE <=? size)%nat || (MAX_DELAY <=? elapsed)
  || (timed_out && (0 <? size)%nat).

(** A clock that reads 0 at its first reading and 0.75 from then on. *)
Definition stale_clock (k : nat) : float :=
  match k with
  | O => 0
  | S _ => 0.75
  end.

(** A clock that reads 3 at its first reading and 4 from then on. *)
Definition step_clock (k : nat) : float :=
  match k with
  | O => 3
  | S _ => 4
  end.

(** Six events whose values round to 50, 50, 61, 50, 61 and 47. *)
Definition demo_events : list Event :=
  [mk_event 1 50.25 1; mk_event 2 49.75 1; mk_event 3 61 2;
   mk_event 1 50.5 2; mk_event 123 61.25 2; mk_event 4 47 2].

(** What a run returned, or [default] when it raised. *)
Definition returned {A : Type} (r : result A) (default : A) : A :=
  match r with
  | Ok a => a
  | Raise _ => default
  end.

(** The outcome of aggregating [demo_events] from the fresh state under a
    clock that always reads 3. *)
Definition demo_outcome : BatchSummary * World (L := demo_libraries) :=
  returned (process_batch (fun _ => 3) demo_events (fresh 0))
           (mk_summary 0 0 0 [] 0 0 0 0 0, fresh 0).

(** The accumulators of a state: all of it but the count of clock readings. *)
Definition accumulators {L : Libraries} (w : World) :=
  (hll w, cms w, value_window w, latency_window w, n w, mean w, M2 w).

Close Scope float_scope.

(** Every counter in [vs] is at least [c], or at [INT32_MAX] if [c] is
    beyond. *)
Definition lower (c : Z) (vs : list Z) : Prop :=
  Forall (fun v => (Z.min c FrequencySketch.INT32_MAX <= v)%Z) vs.

(** Every counter in [vs] is exactly [c], or [INT32_MAX] if [c] is beyond. *)
Definition pinned (c : Z) (vs : list Z) : Prop :=
  Forall (fun v => v = Z.min c FrequencySketch.INT32_MAX) vs.

(** Two states that differ at most in the clock readings made and in the
    latencies held; the latency windows have the same bound and hold equally
    many items. *)
Definition same_but_latencies {L : Libraries} (w1 w2 : World) : Prop :=
  hll w1 = hll w2 /\
  cms w1 = cms w2 /\
  value_window w1 = value_window w2 /\
  n w1 = n w2 /\
  mean w1 = mean w2 /\
  M2 w1 = M2 w2 /\
  maxlen (latency_window w1) = maxlen (latency_window w2) /\
  length (snapshot (latency_window w1)) =
    length (snapshot (latency_window w2)).

(** The sketch [s] is well formed (a positive width, at least one row, every
    row as long as the width) and none of the counters it reads for [key] is
    below [c]. *)
Definition covers (hash : nat -> string -> nat) (key : string)
           (s : FrequencySketch.t) (c : Z) : Prop :=
  0 < FrequencySketch.width s /\
  FrequencySketch.bins s <> [] /\
  Forall (fun row => length row = FrequencySketch.width s)
         (FrequencySketch.bins s) /\
  lower c (FrequencySketch.row_values hash s key 0 (FrequencySketch.bins s)).

(** The sketch [s] is well formed and each of the counters it reads for
    [key] stands exactly at [c], or at [INT32_MAX] if [c] is beyond. *)
Definition fills (hash : nat -> string -> nat) (key : string)
           (s : FrequencySketch.t) (c : Z) : Prop :=
  0 < FrequencySketch.width s /\
  FrequencySketch.bins s <> [] /\
  Forall (fun row => length row = FrequencySketch.width s)
         (FrequencySketch.bins s) /\
  pinned c (FrequencySketch.row_values hash s key 0 (FrequencySketch.bins s)).

(** The events a run of takes delivered, in order. *)
Fixpoint events_of (takes : list Taken) : list Event :=
  match takes with
  | [] => []
  | Got event :: takes' => event :: events_of takes'
  | TimedOut :: takes' => events_of takes'
  end.

(** Whether [round] accepts [x], that is, returns rather than raises. *)
Definition roundable (x : float) : bool :=
  match py_round x with
  | Ok _ => true
  | Raise _ => false
  end.

(** Both windows carry the bound the module gives them, hold equally many
    items, and respect the bound. *)
Definition windows_ok {L : Libraries} (w : World) : Prop :=
  maxlen (value_window w) = Some MAX_WINDOW_SIZE /\
  maxlen (latency_window w) = Some MAX_WINDOW_SIZE /\
  length (snapshot (value_window w)) = length (snapshot (latency_window w)) /\
  length (snapshot (value_window w)) <= MAX_WINDOW_SIZE.

(** A batch of three events, the second of which carries [nan]. *)
Definition nan_events : list Event :=
  [mk_event 1 50 1; mk_event 2 PrimFloat.nan 1; mk_event 3 52 1]%float.

(** The loop fed the events of [demo_events] and then a timeout, from the
    fresh state, under a clock that always reads 3. *)
Definition demo_loop
  : list (list Event) * result (SubState * World (L := demo_libraries)) :=
  subscriber (fun _ => 3%float) (map Got demo_events ++ [TimedOut]) (fresh 0).

(** The state [demo_loop] ends in. *)
Definition demo_loop_end : SubState * World (L := demo_libraries) :=
  returned (snd demo_loop) (mk_sub [] 0%float, fresh 0).

Unset Implicit Arguments.

(** * Properties *)

(** ** Bounded windows *)

Section DequeFacts.

Context {A : Type}.

Lemma deque_append_maxlen (d : deque A) (x : A) :
  maxlen (deque_append d x) = maxlen d.
Proof. unfold deque_append. destruct (maxlen d); reflexivity. Qed.

Lemma push_all_maxlen (xs : list A) (d : deque A) :
  maxlen (push_all d xs) = maxlen d.
Proof.
  unfold push_all. revert d. induction xs as [|x xs IH]; intros d; simpl.
  - reflexivity.
  - rewrite IH. apply deque_append_maxlen.
Qed.

(** A bounded deque never holds more than its bound after an [append]. *)
Lemma deque_append_length (d : deque A) (x : A) (m : nat) :
  maxlen d = Some m ->
  length (deque_items d) <= m ->
  length (deque_items (deque_append d x)) <= m.
Proof.
  intros Hm Hlen. unfold deque_append. rewrite Hm. simpl.
  rewrite length_app. simpl.
  destruct (Nat.ltb_spec m (length (deque_items d) + 1)) as [H|H].
  - destruct (deque_items d); simpl in *; [lia|].
    rewrite length_app. simpl. lia.
  - rewrite length_app. simpl. lia.
Qed.

Lemma push_all_length (xs : list A) (d : deque A) (m : nat) :
  maxlen d = Some m ->
  length (deque_items d) <= m ->
  length (deque_items (push_all d xs)) <= m.
Proof.
  unfold push_all.
  revert d. induction xs as [|x xs IH]; intros d Hm Hlen; simpl.
  - exact Hlen.
  - apply IH.
    + rewrite deque_append_maxlen. exact Hm.
    + apply deque_append_length; assumption.
Qed.

(** What one [append] does to a window that respects a positive bound. *)
Lemma deque_append_items (d : deque A) (x : A) (m : nat) :
  maxlen d = Some (S m) ->
  length (deque_items d) <= S m ->
  deque_items (deque_append d x) =
    if length (deque_items d) =? S m
    then tl (deque_items d) ++ [x]
    else deque_items d ++ [x].
Proof.
  intros Hm Hlen. unfold deque_append. rewrite Hm. simpl.
  rewrite length_app. simpl.
  destruct (Nat.eqb_spec (length (deque_items d)) (S m)) as [E|E].
  - destruct (Nat.ltb_spec (S m) (length (deque_items d) + 1)); [|lia].
    destruct (deque_items d); simpl in *; [lia | reflexivity].
  - destruct (Nat.ltb_spec (S m) (length (deque_items d) + 1)); [lia|].
    reflexivity.
Qed.

Lemma deque_append_raw (d : deque A) (x : A) (m : nat) :
  maxlen d = Some m ->
  deque_items (deque_append d x) =
    if m <? S (length (deque_items d))
    then tl (deque_items d ++ [x])
    else deque_items d ++ [x].
Proof.
  intros Hm. unfold deque_append. rewrite Hm. simpl.
  rewrite length_app. simpl. rewrite Nat.add_1_r. reflexivity.
Qed.

(** A window holds the most recent items, oldest first. *)
Lemma push_all_items (xs : list A) (d : deque A) (m : nat) :
  maxlen d = Some m ->
  length (deque_items d) <= m ->
  deque_items (push_all d xs) =
    skipn (length (deque_items d ++ xs) - m) (deque_items d ++ xs).
Proof.
  revert d. induction xs as [|x xs IH]; intros d Hm Hlen.
  - simpl. rewrite app_nil_r.
    replace (length (deque_items d) - m) with 0 by lia. reflexivity.
  - change (push_all d (x :: xs)) with (push_all (deque_append d x) xs).
    rewrite IH;
      [ | rewrite deque_append_maxlen; exact Hm
        | apply deque_append_length; assumption ].
    rewrite (deque_append_raw d x m Hm).
    destruct (Nat.ltb_spec m (S (length (deque_items d)))) as [H|H].
    + assert (E : length (deque_items d) = m) by lia.
      destruct (deque_items d) as [|a l]; cbn [tl app length] in *.
      * subst m. rewrite !Nat.sub_0_r. reflexivity.
      * rewrite <- app_assoc. cbn [app].
        rewrite !length_app. cbn [length].
        replace (S (length l + S (length xs)) - m)
          with (S (length l + S (length xs) - m)) by lia.
        reflexivity.
    + rewrite <- app_assoc. reflexivity.
Qed.

End DequeFacts.

(** C5: a window of capacity 3 that is pushed 1, 2, 3, 4 shows [2; 3; 4];
    in general a push on a window of positive capacity appends the item,
    dropping the oldest one exactly when the window was full, and the
    snapshot lists the most recent items, oldest first. *)
Theorem bounded_window_push :
  snapshot (push_all (deque_new (Some 3)) [1; 2; 3; 4]%Z) = [2; 3; 4]%Z /\
  (forall (A : Type) (cap : nat) (xs : list A) (x : A),
      let d := push_all (deque_new (Some (S cap))) xs in
      snapshot (deque_append d x) =
        if length (snapshot d) =? S cap
        then tl (snapshot d) ++ [x]
        else snapshot d ++ [x]) /\
  (forall (A : Type) (cap : nat) (xs : list A),
      snapshot (push_all (deque_new (Some cap)) xs) =
        skipn (length xs - cap) xs).
Proof.
  split; [reflexivity | split].
  - intros A cap xs x d. unfold snapshot. apply deque_append_items.
    + unfold d. rewrite push_all_maxlen. reflexivity.
    + unfold d. apply push_all_length; simpl; [reflexivity | lia].
  - intros A cap xs. unfold snapshot.
    rewrite push_all_items with (m := cap); simpl; [reflexivity | reflexivity | lia].
Qed.

(** ** Folding events into the accumulators *)

Section AggregationFacts.

Context {L : Libraries}.
Variable clock : nat -> float.

Lemma py_truediv_nonzero (x : float) (d : Z) :
  d <> 0%Z -> py_truediv x d = Ok (x / float_of_Z d)%float.
Proof.
  intros Hd. unfold py_truediv.
  destruct (Z.eqb_spec d 0); [contradiction | reflexivity].
Qed.

(** With a counter that is not negative the update of one event succeeds;
    its divisor is the incremented counter. *)
Lemma process_event_ok (event : Event) (w : World) :
  (0 <= n w)%Z ->
  exists w',
    process_event clock event w = Ok w' /\
    n w' = (n w + 1)%Z /\
    ticks w' = S (ticks w) /\
    value_window w' = deque_append (value_window w) (value event) /\
    latency_window w' =
      deque_append (latency_window w)
        (clock (ticks w) - timestamp event)%float.
Proof.
  intros Hn. unfold process_event.
  rewrite py_truediv_nonzero by lia. simpl.
  eexists. split; [reflexivity|]. simpl. repeat split.
Qed.

Lemma foldM_process_event_ok (events : list Event) (w : World) :
  (0 <= n w)%Z ->
  exists w',
    foldM (process_event clock) events w = Ok w' /\
    n w' = (n w + Z.of_nat (length events))%Z /\
    ticks w' = ticks w + length events /\
    value_window w' = push_all (value_window w) (map value events) /\
    latency_window w' =
      push_all (latency_window w) (latencies_of clock (ticks w) events).
Proof.
  revert w. induction events as [|e events IH]; intros w Hn.
  - exists w. simpl. repeat split; lia.
  - destruct (process_event_ok e w Hn) as (w1 & E1 & Hn1 & Ht1 & Hv1 & Hl1).
    destruct (IH w1) as (w' & E' & Hn' & Ht' & Hv' & Hl'); [lia|].
    exists w'. simpl. rewrite E1. simpl. rewrite E'.
    split; [reflexivity|].
    rewrite Hn', Ht', Hv', Hl', Hn1, Ht1, Hv1, Hl1.
    repeat split; lia.
Qed.

(** The guard [n > 1] keeps the divisor [n - 1] away from zero. *)
Lemma variance_of_ok (w : World) : exists v, variance_of w = Ok v.
Proof.
  unfold variance_of. destruct (Z.ltb_spec 1 (n w)).
  - rewrite py_truediv_nonzero by lia. eexists. reflexivity.
  - eexists. reflexivity.
Qed.

(** Rounding raises for [nan] and the infinities only, never a division
    error. *)
Lemma py_round_raises (x : float) (e : exn) :
  py_round x = Raise e -> e = ValueError \/ e = OverflowError.
Proof.
  unfold py_round. destruct (Prim2SF x); intros H; inversion H; auto.
Qed.

Lemma mapM_py_round_raises (xs : list float) (e : exn) :
  mapM py_round xs = Raise e -> e = ValueError \/ e = OverflowError.
Proof.
  induction xs as [|x xs IH]; simpl; [discriminate|].
  destruct (py_round x) eqn:Ex; simpl.
  - destruct (mapM py_round xs); simpl; [discriminate|].
    intros H. apply IH. congruence.
  - intros H. apply py_round_raises with (x := x). congruence.
Qed.

Lemma top_buckets_raises (w : World) (e : exn) :
  top_buckets w = Raise e -> e = ValueError \/ e = OverflowError.
Proof.
  unfold top_buckets.
  destruct (mapM py_round (snapshot (value_window w))) eqn:E; simpl.
  - discriminate.
  - intros H. apply mapM_py_round_raises with (xs := snapshot (value_window w)).
    congruence.
Qed.

(** The summary raises where the rounding of the value window raises, or,
    on an empty latency window, where the percentile does. *)
Lemma summarise_raises (w : World) (x : exn) :
  summarise w = Raise x ->
  top_buckets w = Raise x \/
  (x = IndexError /\ snapshot (latency_window w) = []).
Proof.
  unfold summarise. destruct (top_buckets w) as [top|e]; simpl.
  - destruct (variance_of_ok w) as [v Ev]. rewrite Ev. simpl.
    unfold percentile. destruct (snapshot (latency_window w)); simpl.
    + intros H. inversion H; subst. right. split; reflexivity.
    + discriminate.
  - intros H. inversion H; subst. left. reflexivity.
Qed.

Lemma summarise_returns (w : World) (s : BatchSummary) :
  summarise w = Ok s ->
  top_buckets w = Ok (top_items s) /\
  variance_of w = Ok (variance s) /\
  rolling_mean s = mean w /\
  events_processed s = n w /\
  snapshot (latency_window w) <> [].
Proof.
  unfold summarise. destruct (top_buckets w) as [top|e]; simpl; [|discriminate].
  destruct (variance_of w) as [v|e]; simpl; [|discriminate].
  unfold percentile. destruct (snapshot (latency_window w)); simpl;
    [discriminate|].
  intros H. inversion H; subst. simpl. repeat split. discriminate.
Qed.

(** [process_batch] is the fold of its events followed by the summary; from
    a counter that is not negative the fold returns. *)
Lemma process_batch_unfold (events : list Event) (w : World) :
  (0 <= n w)%Z ->
  exists w',
    foldM (process_event clock) events w = Ok w' /\
    ((exists s, process_batch clock events w = Ok (s, w') /\
                summarise w' = Ok s) \/
     (exists e, process_batch clock events w = Raise e /\
                summarise w' = Raise e)).
Proof.
  intros Hn.
  destruct (foldM_process_event_ok events w Hn) as (w' & E & _).
  exists w'. split; [exact E|].
  unfold process_batch. rewrite E. simpl.
  destruct (summarise w') as [s|e]; simpl.
  - left. exists s. split; reflexivity.
  - right. exists e. split; reflexivity.
Qed.

(** From a counter that is not negative [process_batch] raises no division
    error and leaves a counter that is not negative. *)
Lemma process_batch_counter (events : list Event) (w : World) :
  (0 <= n w)%Z ->
  process_batch clock events w <> Raise ZeroDivisionError /\
  (forall s w', process_batch clock events w = Ok (s, w') -> (0 <= n w')%Z).
Proof.
  intros Hn.
  destruct (foldM_process_event_ok events w Hn) as (w1 & E1 & Hn1 & _).
  destruct (process_batch_unfold events w Hn)
    as (w' & Efold & [(s & Eb & _) | (e & Eb & Esum)]);
    rewrite Efold in E1; inversion E1; subst w1; rewrite Eb.
  - split; [discriminate|].
    intros s0 w0 E0. inversion E0; subst. lia.
  - split; [|discriminate].
    intros H. inversion H; subst.
    destruct (summarise_raises _ _ Esum) as [Etop | [Ex _]];
      [destruct (top_buckets_raises _ _ Etop) |]; discriminate.
Qed.

End AggregationFacts.

(** C4: from the fresh accumulators the values 10, 20, 30 give the mean 20
    and the variance 100 (denominator [n - 1]); a single value gives the
    variance 0. *)
Theorem rolling_moments_10_20_30 :
  forall (L : Libraries) (clock : nat -> float) (t : nat)
         (u1 u2 u3 : Z) (t1 t2 t3 : float),
    result_map (fun r => (rolling_mean (fst r), variance (fst r)))
      (process_batch clock
         [mk_event u1 10 t1; mk_event u2 20 t2; mk_event u3 30 t3]
         (fresh t))
    = Ok (20%float, 100%float) /\
    result_map (fun r => (rolling_mean (fst r), variance (fst r)))
      (process_batch clock [mk_event u1 10 t1] (fresh t))
    = Ok (10%float, 0%float).
Proof.
  intros. split; vm_compute; reflexivity.
Qed.

(** C10: from a counter that is not negative (it starts at 0 and is only
    incremented) [process_batch] never raises [ZeroDivisionError]: every event
    of the batch, which may be empty, is folded with a divisor [n >= 1], the
    variance is computed for every state thanks to its guard, and the counter
    stays non-negative for the next batch. *)
Theorem process_batch_no_zero_division :
  forall (L : Libraries) (clock : nat -> float)
         (events : list Event) (w : World),
    (0 <= n w)%Z ->
    process_batch clock events w <> Raise ZeroDivisionError /\
    (exists w', foldM (process_event clock) events w = Ok w') /\
    (forall event, exists w',
        process_event clock event w = Ok w' /\ (1 <= n w')%Z) /\
    (forall w0 : World, exists v, variance_of w0 = Ok v) /\
    (forall s w', process_batch clock events w = Ok (s, w') -> (0 <= n w')%Z).
Proof.
  intros L clock events w Hn.
  destruct (process_batch_counter clock events w Hn) as [Hsafe Hnext].
  split; [exact Hsafe|]. split; [|split; [|split]].
  - destruct (foldM_process_event_ok clock events w Hn) as (w' & E & _).
    exists w'. exact E.
  - intros event.
    destruct (process_event_ok clock event w Hn) as (w1 & E1 & Hn1 & _).
    exists w1. split; [exact E1 | lia].
  - intros w0. apply variance_of_ok.
  - exact Hnext.
Qed.

Lemma process_batch_no_zero_division_witness :
  (0 <= n (fresh (L := demo_libraries) 0))%Z /\
  process_batch (L := demo_libraries) (fun _ => 3%float) [] (fresh 0)
    <> Raise ZeroDivisionError.
Proof.
  split.
  - simpl. lia.
  - apply (process_batch_no_zero_division demo_libraries
             (fun _ => 3%float) [] (fresh 0)).
    simpl. lia.
Defined.

(** ** The frequency sketch *)

Section SketchFacts.

Variable hash : nat -> string -> nat.
Variable key : string.

Local Open Scope Z_scope.

Local Abbreviation add := (FrequencySketch.add hash).
Local Abbreviation add_rows := (FrequencySketch.add_rows hash).
Local Abbreviation row_values := (FrequencySketch.row_values hash).
Local Abbreviation bump := FrequencySketch.bump.
Local Abbreviation width := FrequencySketch.width.
Local Abbreviation bins := FrequencySketch.bins.
Local Abbreviation top := FrequencySketch.INT32_MAX.

Lemma bump_length (row : list Z) (j : nat) :
  length (bump row j) = length row.
Proof.
  revert j. induction row as [|c row IH]; intros [|j]; simpl; auto.
Qed.

(** A counter that is at least [min c top] stays so whatever cell of its row
    is incremented. *)
Lemma bump_keeps (row : list Z) (j j' : nat) (c : Z) :
  Z.min c top <= nth j row 0 -> Z.min c top <= nth j (bump row j') 0.
Proof.
  revert j j'. induction row as [|v row IH]; intros j j' H.
  - destruct j'; exact H.
  - destruct j' as [|j']; destruct j as [|j]; simpl in *; try lia.
    apply IH. exact H.
Qed.

Lemma bump_hit (row : list Z) (j : nat) :
  (j < length row)%nat ->
  nth j (bump row j) 0 = Z.min (nth j row 0 + 1) top.
Proof.
  revert j. induction row as [|c row IH]; intros j Hj; simpl in Hj.
  - lia.
  - destruct j as [|j]; simpl; [reflexivity|]. apply IH. lia.
Qed.

(** Adding any key leaves every counter of [key] at least where it was. *)
Lemma add_rows_lower (s s' : FrequencySketch.t) (k : string) (c : Z)
      (rows : list (list Z)) (i : nat) :
  width s' = width s ->
  lower c (row_values s key i rows) ->
  lower c (row_values s' key i (add_rows s k i rows)).
Proof.
  intros Hw. revert i. induction rows as [|row rows IH]; intros i H; simpl.
  - constructor.
  - simpl in H. inversion H as [|v vs Hv Hvs]; subst.
    constructor.
    + unfold FrequencySketch.cell. rewrite Hw. apply bump_keeps. exact Hv.
    + apply IH. exact Hvs.
Qed.

(** Adding [key] itself raises each of its counters by one, up to
    [INT32_MAX]. *)
Lemma add_rows_hit (s s' : FrequencySketch.t) (c : Z)
      (rows : list (list Z)) (i : nat) :
  width s' = width s ->
  (0 < width s)%nat ->
  Forall (fun row => length row = width s) rows ->
  lower c (row_values s key i rows) ->
  lower (c + 1) (row_values s' key i (add_rows s key i rows)).
Proof.
  intros Hw Hpos. revert i.
  induction rows as [|row rows IH]; intros i Hlen H; simpl.
  - constructor.
  - simpl in H. inversion H as [|v vs Hv Hvs]; subst.
    inversion Hlen as [|r rs Hr Hrs]; subst.
    constructor.
    + unfold FrequencySketch.cell in *. rewrite Hw.
      rewrite bump_hit; [lia|].
      rewrite Hr. apply Nat.mod_upper_bound. lia.
    + apply IH; assumption.
Qed.

(** Adding [key] to counters that all stand at [min c top] puts them all at
    [min (c + 1) top]. *)
Lemma add_rows_pinned (s s' : FrequencySketch.t) (c : Z)
      (rows : list (list Z)) (i : nat) :
  width s' = width s ->
  (0 < width s)%nat ->
  Forall (fun row => length row = width s) rows ->
  pinned c (row_values s key i rows) ->
  pinned (c + 1) (row_values s' key i (add_rows s key i rows)).
Proof.
  intros Hw Hpos. revert i.
  induction rows as [|row rows IH]; intros i Hlen H; simpl.
  - constructor.
  - simpl in H. inversion H as [|v vs Hv Hvs]; subst.
    inversion Hlen as [|r rs Hr Hrs]; subst.
    constructor.
    + unfold FrequencySketch.cell in *. rewrite Hw.
      rewrite bump_hit; [lia|].
      rewrite Hr. apply Nat.mod_upper_bound. lia.
    + apply IH; assumption.
Qed.

Lemma add_rows_shape (s : FrequencySketch.t) (k : string) (m : nat)
      (rows : list (list Z)) (i : nat) :
  Forall (fun row => length row = m) rows ->
  Forall (fun row => length row = m) (add_rows s k i rows).
Proof.
  revert i. induction rows as [|row rows IH]; intros i H; simpl.
  - constructor.
  - inversion H; subst. constructor.
    + apply bump_length.
    + apply IH. assumption.
Qed.

Lemma add_rows_nonempty (s : FrequencySketch.t) (k : string)
      (rows : list (list Z)) (i : nat) :
  rows <> [] -> add_rows s k i rows <> [].
Proof. destruct rows; simpl; [contradiction | discriminate]. Qed.

Local Abbreviation sound := (covers hash key).
Local Abbreviation exact := (fills hash key).
Local Abbreviation hits k := (if string_dec k key then 1 else 0).

Lemma covers_add (s : FrequencySketch.t) (k : string) (c : Z) :
  sound s c -> sound (add s k) (c + hits k).
Proof.
  intros (Hpos & Hne & Hshape & Hlow). unfold covers. simpl.
  repeat split.
  - exact Hpos.
  - apply add_rows_nonempty. exact Hne.
  - apply add_rows_shape. exact Hshape.
  - destruct (string_dec k key) as [->|Hk].
    + apply add_rows_hit; auto.
    + rewrite Z.add_0_r. apply add_rows_lower; auto.
Qed.

Lemma covers_add_all (keys : list string) (s : FrequencySketch.t) (c : Z) :
  sound s c ->
  sound (FrequencySketch.add_all hash s keys)
         (c + Z.of_nat (count_occ string_dec keys key)).
Proof.
  unfold FrequencySketch.add_all.
  revert s c. induction keys as [|k keys IH]; intros s c H; simpl.
  - rewrite Z.add_0_r. exact H.
  - apply covers_add with (k := k) in H. apply IH in H.
    destruct (string_dec k key) as [E|E].
    + replace (c + Z.of_nat (S (count_occ string_dec keys key)))
        with (c + 1 + Z.of_nat (count_occ string_dec keys key)) by lia.
      exact H.
    + rewrite Z.add_0_r in H. exact H.
Qed.

Lemma fills_add (s : FrequencySketch.t) (c : Z) :
  exact s c -> exact (add s key) (c + 1).
Proof.
  intros (Hpos & Hne & Hshape & Hpin). unfold fills. simpl.
  repeat split.
  - exact Hpos.
  - apply add_rows_nonempty. exact Hne.
  - apply add_rows_shape. exact Hshape.
  - apply add_rows_pinned; auto.
Qed.

Lemma fills_repeat (m : nat) (s : FrequencySketch.t) (c : Z) :
  exact s c ->
  exact (FrequencySketch.add_all hash s (repeat key m)) (c + Z.of_nat m).
Proof.
  unfold FrequencySketch.add_all.
  revert s c. induction m as [|m IH]; intros s c H.
  - simpl. rewrite Z.add_0_r. exact H.
  - cbn [repeat fold_left]. apply fills_add in H. apply IH in H.
    replace (c + Z.of_nat (S m)) with (c + 1 + Z.of_nat m) by lia.
    exact H.
Qed.

Lemma fold_min_lower (vs : list Z) (v b : Z) :
  b <= v -> Forall (fun x => b <= x) vs -> b <= fold_left Z.min vs v.
Proof.
  revert v. induction vs as [|x vs IH]; intros v Hv H; simpl.
  - exact Hv.
  - inversion H; subst. apply IH; [lia | assumption].
Qed.

Lemma fold_min_pinned (vs : list Z) (b : Z) :
  Forall (fun x => x = b) vs -> fold_left Z.min vs b = b.
Proof.
  induction vs as [|x vs IH]; intros H; simpl.
  - reflexivity.
  - inversion H; subst. rewrite Z.min_id. apply IH. assumption.
Qed.

Lemma covers_estimate (s : FrequencySketch.t) (c : Z) :
  sound s c -> Z.min c top <= FrequencySketch.estimate hash s key.
Proof.
  intros (_ & Hne & _ & Hlow). unfold FrequencySketch.estimate.
  destruct (bins s) as [|row rows]; [contradiction|].
  unfold lower in Hlow. simpl in *. inversion Hlow; subst.
  apply fold_min_lower; assumption.
Qed.

Lemma fills_estimate (s : FrequencySketch.t) (c : Z) :
  exact s c -> FrequencySketch.estimate hash s key = Z.min c top.
Proof.
  intros (_ & Hne & _ & Hpin). unfold FrequencySketch.estimate.
  destruct (bins s) as [|row rows]; [contradiction|].
  unfold pinned in Hpin. simpl in *. inversion Hpin as [|v vs Hv Hvs]; subst.
  rewrite Hv. apply fold_min_pinned. exact Hvs.
Qed.

Lemma row_values_zero (s : FrequencySketch.t) (w d i : nat) :
  pinned 0 (row_values s key i (repeat (repeat 0 w) d)).
Proof.
  revert i. induction d as [|d IH]; intros i; simpl; constructor.
  - rewrite nth_repeat. reflexivity.
  - apply IH.
Qed.

Lemma fills_new (w d : nat) :
  (0 < w)%nat -> (0 < d)%nat -> exact (FrequencySketch.new w d) 0.
Proof.
  intros Hw Hd. unfold fills. simpl. repeat split.
  - exact Hw.
  - destruct d; [lia | discriminate].
  - apply Forall_forall. intros row Hrow.
    apply repeat_spec in Hrow. subst. apply repeat_length.
  - apply row_values_zero.
Qed.

Lemma fills_covers (s : FrequencySketch.t) (c : Z) : exact s c -> sound s c.
Proof.
  intros (Hpos & Hne & Hshape & Hpin). repeat split; try assumption.
  unfold lower, pinned in *. rewrite Forall_forall in *.
  intros v Hv. rewrite (Hpin v Hv). lia.
Qed.

(** A key added [m] times to a new sketch, and nothing else, is estimated at
    [m], up to [INT32_MAX]. *)
Lemma estimate_repeat (w d m : nat) :
  (0 < w)%nat -> (0 < d)%nat ->
  FrequencySketch.estimate hash
    (FrequencySketch.add_all hash (FrequencySketch.new w d) (repeat key m))
    key
  = Z.min (Z.of_nat m) top.
Proof.
  intros Hw Hd.
  rewrite (fills_estimate _ (0 + Z.of_nat m)); [reflexivity|].
  apply fills_repeat, fills_new; assumption.
Qed.

End SketchFacts.



(** ** The batching loop *)

Section SubscriberFacts.

Context {L : Libraries}.
Variable clock : nat -> float.

(** A flush that returns leaves an empty buffer and a [start] read from the
    clock after [process_batch] is done. *)
Lemma flush_ok (buf : list Event) (w : World) (s' : SubState) (w' : World) :
  flush clock buf w = Ok (s', w') ->
  buffer s' = [] /\ start s' = clock (Nat.pred (ticks w')).
Proof.
  unfold flush. destruct (process_batch clock buf w) as [[sm w1]|e]; simpl.
  - intros H. inversion H; subst. simpl. split; reflexivity.
  - discriminate.
Qed.

(** The batch a turn hands over, and when. *)
Lemma subscriber_iter_flushed (t : Taken) (s : SubState) (w : World) :
  fst (subscriber_iter clock t s w) =
    match t with
    | Got event =>
        if (BATCH_SIZE <=? length (buffer s ++ [event]))
           || (MAX_DELAY <=? clock (ticks w) - start s)%float
        then Some (buffer s ++ [event])
        else None
    | TimedOut =>
        match buffer s with
        | [] => None
        | _ :: _ => Some (buffer s)
        end
    end.
Proof.
  unfold subscriber_iter. destruct t as [event|].
  - destruct (BATCH_SIZE <=? length (buffer s ++ [event])); simpl.
    + reflexivity.
    + destruct (MAX_DELAY <=? clock (ticks w) - start s)%float; reflexivity.
  - destruct (buffer s); reflexivity.
Qed.

(** The state a turn leaves when it returns. *)
Lemma subscriber_iter_next (t : Taken) (s s' : SubState) (w w' : World) :
  snd (subscriber_iter clock t s w) = Ok (s', w') ->
  match fst (subscriber_iter clock t s w) with
  | Some _ => buffer s' = [] /\ start s' = clock (Nat.pred (ticks w'))
  | None =>
      start s' = start s /\
      buffer s' = match t with
                  | Got event => buffer s ++ [event]
                  | TimedOut => buffer s
                  end
  end.
Proof.
  unfold subscriber_iter. destruct t as [event|].
  - destruct (BATCH_SIZE <=? length (buffer s ++ [event])); simpl.
    + apply flush_ok.
    + destruct (MAX_DELAY <=? clock (ticks w) - start s)%float; simpl.
      * apply flush_ok.
      * intros H. inversion H; subst. simpl. split; reflexivity.
  - destruct (buffer s) eqn:Eb; simpl.
    + intros H. inversion H; subst. rewrite Eb. split; reflexivity.
    + apply flush_ok.
Qed.

(** A buffer shorter than [BATCH_SIZE] at the head of the loop is flushed
    with between 1 and [BATCH_SIZE] events, and is shorter than
    [BATCH_SIZE] again at the next head. *)
Lemma subscriber_iter_bounds (t : Taken) (s : SubState) (w : World) :
  length (buffer s) < BATCH_SIZE ->
  (forall b, fst (subscriber_iter clock t s w) = Some b ->
             1 <= length b <= BATCH_SIZE) /\
  (forall s' w', snd (subscriber_iter clock t s w) = Ok (s', w') ->
                 length (buffer s') < BATCH_SIZE).
Proof.
  intros Hlen. split.
  - intros b. rewrite subscriber_iter_flushed. destruct t as [event|].
    + destruct (_ || _); [|discriminate].
      intros H. inversion H; subst. rewrite length_app. simpl. lia.
    + destruct (buffer s) as [|e l] eqn:Eb; [discriminate|].
      intros H. inversion H; subst. simpl in *. lia.
  - intros s' w' H. apply subscriber_iter_next in H.
    rewrite subscriber_iter_flushed in H. destruct t as [event|].
    + destruct (Nat.leb_spec BATCH_SIZE (length (buffer s ++ [event])))
        as [Hb|Hb]; simpl in H.
      * destruct H as [-> _]. unfold BATCH_SIZE. simpl. lia.
      * destruct (MAX_DELAY <=? clock (ticks w) - start s)%float.
        -- destruct H as [-> _]. unfold BATCH_SIZE. simpl. lia.
        -- destruct H as [_ ->]. exact Hb.
    + destruct (buffer s) as [|e l] eqn:Eb.
      * destruct H as [_ ->]. unfold BATCH_SIZE. simpl. lia.
      * destruct H as [-> _]. unfold BATCH_SIZE. simpl. lia.
Qed.

Lemma subscriber_loop_bounds (takes : list Taken) (s : SubState) (w : World) :
  length (buffer s) < BATCH_SIZE ->
  Forall (fun b => 1 <= length b <= BATCH_SIZE)
         (fst (subscriber_loop clock takes s w)).
Proof.
  revert s w. induction takes as [|t takes IH]; intros s w Hlen; simpl.
  - constructor.
  - destruct (subscriber_iter_bounds t s w Hlen) as [Hb Hnext].
    destruct (subscriber_iter clock t s w) as [flushed [[s' w']|e]];
      simpl in *.
    + specialize (IH s' w' (Hnext s' w' eq_refl)).
      destruct (subscriber_loop clock takes s' w') as [batches r].
      simpl in *. destruct flushed as [b|].
      * constructor; [apply Hb; reflexivity | exact IH].
      * exact IH.
    + destruct flushed as [b|].
      * constructor; [apply Hb; reflexivity | constructor].
      * constructor.
Qed.

Lemma flush_counter (buf : list Event) (w : World) :
  (0 <= n w)%Z ->
  flush clock buf w <> Raise ZeroDivisionError /\
  (forall s' w', flush clock buf w = Ok (s', w') -> (0 <= n w')%Z).
Proof.
  intros Hn. destruct (process_batch_counter clock buf w Hn) as [Hsafe Hnext].
  unfold flush.
  destruct (process_batch clock buf w) as [[sm w1]|e]; simpl.
  - split; [discriminate|].
    intros s' w' H. inversion H; subst. simpl. apply (Hnext sm). reflexivity.
  - split; [congruence | discriminate].
Qed.

Lemma subscriber_iter_counter (t : Taken) (s : SubState) (w : World) :
  (0 <= n w)%Z ->
  snd (subscriber_iter clock t s w) <> Raise ZeroDivisionError /\
  (forall s' w', snd (subscriber_iter clock t s w) = Ok (s', w') ->
                 (0 <= n w')%Z).
Proof.
  intros Hn. unfold subscriber_iter. destruct t as [event|].
  - destruct (BATCH_SIZE <=? length (buffer s ++ [event])); simpl.
    + apply flush_counter. exact Hn.
    + destruct (MAX_DELAY <=? clock (ticks w) - start s)%float; simpl.
      * apply flush_counter. exact Hn.
      * split; [discriminate|]. intros s' w' H. inversion H; subst. exact Hn.
  - destruct (buffer s); simpl.
    + split; [discriminate|]. intros s' w' H. inversion H; subst. exact Hn.
    + apply flush_counter. exact Hn.
Qed.

Lemma subscriber_loop_counter (takes : list Taken) (s : SubState) (w : World) :
  (0 <= n w)%Z ->
  snd (subscriber_loop clock takes s w) <> Raise ZeroDivisionError.
Proof.
  revert s w. induction takes as [|t takes IH]; intros s w Hn; simpl.
  - discriminate.
  - destruct (subscriber_iter_counter t s w Hn) as [Hsafe Hnext].
    destruct (subscriber_iter clock t s w) as [flushed [[s' w']|e]];
      simpl in *.
    + specialize (IH s' w' (Hnext s' w' eq_refl)).
      destruct (subscriber_loop clock takes s' w') as [batches r].
      simpl in *. exact IH.
    + exact Hsafe.
Qed.

(** The loop, started on the state the module body sets up, never ends in a
    division error: the counter starts at 0 and every turn keeps it
    non-negative. *)
Lemma subscriber_no_zero_division (takes : list Taken) (t : nat) :
  snd (subscriber clock takes (fresh t)) <> Raise ZeroDivisionError.
Proof.
  unfold subscriber, subscriber_init. simpl.
  apply subscriber_loop_counter. simpl. lia.
Qed.

End SubscriberFacts.

(** C1, as the code has it: a turn of the loop hands the buffer to
    [process_batch] exactly when, after an event was appended, the buffer
    holds at least [BATCH_SIZE] events or the clock is at least [MAX_DELAY]
    past [start], or when the take timed out on a non-empty buffer; [start]
    is the clock reading made right after the previous flush (at loop entry
    before the first one), and does not move otherwise.  The batch is the
    whole buffer, which is empty after the flush; a timeout on an empty
    buffer changes nothing. *)
Theorem subscriber_flush_rule :
  forall (L : Libraries) (clock : nat -> float)
         (t : Taken) (s : SubState) (w : World),
    fst (subscriber_iter clock t s w) =
      match t with
      | Got event =>
          if (BATCH_SIZE <=? length (buffer s ++ [event]))
             || (MAX_DELAY <=? clock (ticks w) - start s)%float
          then Some (buffer s ++ [event])
          else None
      | TimedOut =>
          if (0 <? length (buffer s)) then Some (buffer s) else None
      end /\
    (forall s' w',
        snd (subscriber_iter clock t s w) = Ok (s', w') ->
        match fst (subscriber_iter clock t s w) with
        | Some _ => buffer s' = [] /\ start s' = clock (Nat.pred (ticks w'))
        | None =>
            start s' = start s /\
            buffer s' = match t with
                        | Got event => buffer s ++ [event]
                        | TimedOut => buffer s
                        end
        end) /\
    (t = TimedOut -> buffer s = [] ->
     subscriber_iter clock t s w = (None, Ok (s, w))) /\
    fst (subscriber_init clock w) =
      {| buffer := []; start := clock (ticks w) |}.
Proof.
  intros L clock t s w. repeat split.
  - rewrite subscriber_iter_flushed. destruct t; [reflexivity|].
    destruct (buffer s); reflexivity.
  - intros s' w'. apply subscriber_iter_next.
  - intros -> Hb. unfold subscriber_iter. rewrite Hb. reflexivity.
Qed.

(** C9: every batch the loop hands to [process_batch] holds at least one and
    at most [BATCH_SIZE] events, whatever the takes, the clock and the
    accumulators are. *)
Theorem flushed_batches_bounded :
  forall (L : Libraries) (clock : nat -> float)
         (takes : list Taken) (w : World),
    Forall (fun b => 1 <= length b <= BATCH_SIZE)
           (fst (subscriber clock takes w)).
Proof.
  intros L clock takes w. unfold subscriber, subscriber_init. simpl.
  apply subscriber_loop_bounds. unfold BATCH_SIZE. simpl. lia.
Qed.

(** C1 as claimed fails: the loop starts at time 0, a take times out on the
    empty buffer, then an event emitted at 0.75 is taken at 0.75.  The buffer
    holds one event whose first item is 0 seconds old, yet it is flushed,
    because [start] still dates from the loop entry. *)
Lemma stale_start_flushes_single_event :
  fst (subscriber (L := demo_libraries) stale_clock
         [TimedOut; Got (mk_event 1 50 0.75)] (fresh 0))
  = [[mk_event 1 50 0.75]] /\
  spec_flush_rule 1 (stale_clock 1 - timestamp (mk_event 1 50 0.75))%float
    false = false.
Proof. split; vm_compute; reflexivity. Qed.

(** ** Determinism *)

Section DeterminismFacts.

Context {L : Libraries}.
Variables clock1 clock2 : nat -> float.

Lemma process_event_agree (event : Event) (w1 w2 : World) :
  accumulators w1 = accumulators w2 ->
  clock1 (ticks w1) = clock2 (ticks w2) ->
  match process_event clock1 event w1, process_event clock2 event w2 with
  | Ok a, Ok b =>
      accumulators a = accumulators b /\
      ticks a = S (ticks w1) /\ ticks b = S (ticks w2)
  | Raise x, Raise y => x = y
  | _, _ => False
  end.
Proof.
  destruct w1 as [k1 h1 c1 v1 l1 n1 m1 q1], w2 as [k2 h2 c2 v2 l2 n2 m2 q2].
  unfold accumulators, process_event. simpl.
  intros Hacc Hclock. inversion Hacc; subst. rewrite Hclock.
  destruct (py_truediv (value event - m2)%float (n2 + 1)); simpl.
  - repeat split.
  - reflexivity.
Qed.

Lemma foldM_process_event_agree (events : list Event) (w1 w2 : World) :
  accumulators w1 = accumulators w2 ->
  (forall i, i < length events ->
             clock1 (ticks w1 + i) = clock2 (ticks w2 + i)) ->
  match foldM (process_event clock1) events w1,
        foldM (process_event clock2) events w2 with
  | Ok a, Ok b => accumulators a = accumulators b
  | Raise x, Raise y => x = y
  | _, _ => False
  end.
Proof.
  revert w1 w2. induction events as [|e events IH]; intros w1 w2 Hacc Hclock.
  - simpl. exact Hacc.
  - simpl.
    assert (H0 : clock1 (ticks w1) = clock2 (ticks w2)).
    { specialize (Hclock 0). rewrite !Nat.add_0_r in Hclock.
      apply Hclock. simpl. lia. }
    pose proof (process_event_agree e w1 w2 Hacc H0) as H.
    destruct (process_event clock1 e w1) as [a|x],
             (process_event clock2 e w2) as [b|y]; simpl;
      try contradiction; [|exact H].
    destruct H as (Hab & Ha & Hb).
    apply IH; [exact Hab|].
    intros i Hi. rewrite Ha, Hb.
    specialize (Hclock (S i)). rewrite !Nat.add_succ_r in Hclock.
    simpl. apply Hclock. simpl. lia.
Qed.

(** The summary is a function of the accumulators alone. *)
Lemma summary_agree (a b : World) :
  accumulators a = accumulators b -> summarise a = summarise b.
Proof.
  destruct a as [k1 h1 c1 v1 l1 n1 m1 q1], b as [k2 h2 c2 v2 l2 n2 m2 q2].
  unfold accumulators, summarise, top_buckets, variance_of. simpl.
  intros Hacc. inversion Hacc; subst. reflexivity.
Qed.

Lemma process_batch_agree (events : list Event) (w1 w2 : World) :
  accumulators w1 = accumulators w2 ->
  (forall i, i < length events ->
             clock1 (ticks w1 + i) = clock2 (ticks w2 + i)) ->
  result_map fst (process_batch clock1 events w1) =
  result_map fst (process_batch clock2 events w2).
Proof.
  intros Hacc Hclock.
  pose proof (foldM_process_event_agree events w1 w2 Hacc Hclock) as H.
  unfold process_batch.
  destruct (foldM (process_event clock1) events w1) as [a|x],
           (foldM (process_event clock2) events w2) as [b|y];
    try contradiction.
  - simpl. rewrite (summary_agree a b H).
    destruct (summarise b); reflexivity.
  - simpl. congruence.
Qed.

End DeterminismFacts.

(** C7: two aggregations of the same batch, each from freshly built
    accumulators and under clocks that give the same readings to the events
    of the batch, report the same summary (or raise the same exception). *)
Theorem aggregation_deterministic :
  forall (L : Libraries) (clock1 clock2 : nat -> float) (t1 t2 : nat)
         (events : list Event),
    (forall i, i < length events -> clock1 (t1 + i) = clock2 (t2 + i)) ->
    result_map fst (process_batch clock1 events (fresh t1)) =
    result_map fst (process_batch clock2 events (fresh t2)).
Proof.
  intros L clock1 clock2 t1 t2 events Hclock.
  apply process_batch_agree; [reflexivity | exact Hclock].
Qed.

(** Without rebuilding the accumulators the second aggregation of a batch
    reports something else: the counter, for one, has moved on. *)
Remark second_aggregation_differs :
  result_map (fun r => events_processed (fst r))
    (process_batch (L := demo_libraries) (fun _ => 3%float)
       demo_events (fresh 0)) = Ok 6%Z /\
  result_map (fun r => events_processed (fst r))
    (process_batch (L := demo_libraries) (fun _ => 3%float)
       demo_events (snd demo_outcome)) = Ok 12%Z.
Proof. split; vm_compute; reflexivity. Qed.

Lemma aggregation_deterministic_witness :
  (forall i, i < length [mk_event 7 50 1; mk_event 8 60 2] ->
             step_clock (1 + i) = (fun _ => 4%float) (5 + i)) /\
  result_map fst
    (process_batch (L := demo_libraries) step_clock
       [mk_event 7 50 1; mk_event 8 60 2] (fresh 1)) =
  result_map fst
    (process_batch (L := demo_libraries) (fun _ => 4%float)
       [mk_event 7 50 1; mk_event 8 60 2] (fresh 5)).
Proof.
  assert (H : forall i, i < length [mk_event 7 50 1; mk_event 8 60 2] ->
                        step_clock (1 + i) = (fun _ => 4%float) (5 + i))
    by (intros i _; reflexivity).
  split; [exact H|].
  exact (aggregation_deterministic demo_libraries
           step_clock (fun _ => 4%float) 1 5
           [mk_event 7 50 1; mk_event 8 60 2] H).
Defined.

(** ** Counting and ranking the buckets *)

Section SortedFacts.

Context {A B : Type}.

Lemma StronglySorted_weaken (R R' : A -> A -> Prop) (l : list A) :
  (forall x y, In x l -> In y l -> R x y -> R' x y) ->
  StronglySorted R l -> StronglySorted R' l.
Proof.
  induction l as [|a l IH]; intros Himp Hs.
  - constructor.
  - apply StronglySorted_inv in Hs. destruct Hs as [Hs Ha].
    constructor.
    + apply IH; [|exact Hs]. intros x y Hx Hy. apply Himp; right; assumption.
    + rewrite Forall_forall in *. intros y Hy.
      apply Himp; [left; reflexivity | right; exact Hy | apply Ha; exact Hy].
Qed.

Lemma StronglySorted_map (R : B -> B -> Prop) (f : A -> B) (l : list A) :
  StronglySorted (fun x y => R (f x) (f y)) l <->
  StronglySorted R (map f l).
Proof.
  induction l as [|a l IH]; simpl.
  - split; constructor.
  - split; intros Hs; apply StronglySorted_inv in Hs; destruct Hs as [Hs Ha];
      constructor; try (apply IH; exact Hs).
    + rewrite Forall_forall in *. intros y Hy.
      apply in_map_iff in Hy. destruct Hy as (x & <- & Hx). apply Ha, Hx.
    + rewrite Forall_forall in *. intros x Hx. apply Ha, in_map, Hx.
Qed.

Lemma StronglySorted_app_inv (R : A -> A -> Prop) (l1 l2 : list A) :
  StronglySorted R (l1 ++ l2) ->
  StronglySorted R l1 /\ StronglySorted R l2 /\
  (forall x y, In x l1 -> In y l2 -> R x y).
Proof.
  induction l1 as [|a l1 IH]; simpl; intros Hs.
  - repeat split; [constructor | exact Hs | intros x y []].
  - apply StronglySorted_inv in Hs. destruct Hs as [Hs Ha].
    destruct (IH Hs) as (H1 & H2 & H12).
    rewrite Forall_forall in Ha. repeat split.
    + constructor; [exact H1|]. apply Forall_forall. intros y Hy.
      apply Ha, in_or_app. left. exact Hy.
    + exact H2.
    + intros x y [<-|Hx] Hy.
      * apply Ha, in_or_app. right. exact Hy.
      * apply H12; assumption.
Qed.

Lemma StronglySorted_snoc (R : A -> A -> Prop) (l : list A) (a : A) :
  StronglySorted R l -> Forall (fun x => R x a) l ->
  StronglySorted R (l ++ [a]).
Proof.
  induction l as [|b l IH]; simpl; intros Hs Ha.
  - constructor; constructor.
  - apply StronglySorted_inv in Hs. destruct Hs as [Hs Hb].
    inversion Ha; subst. constructor.
    + apply IH; assumption.
    + apply Forall_app. split; [exact Hb | constructor; [assumption | constructor]].
Qed.

End SortedFacts.

Section CounterFacts.

Lemma first_index_bound (b : Z) (bs : list Z) :
  In b bs -> first_index b bs < length bs.
Proof.
  induction bs as [|x bs IH]; simpl; [intros []|].
  intros H. destruct (Z.eqb_spec x b) as [E|E]; [lia|].
  destruct H as [H|H]; [contradiction|]. apply IH in H. lia.
Qed.

Lemma first_index_app_in (b x : Z) (bs : list Z) :
  In b bs -> first_index b (bs ++ [x]) = first_index b bs.
Proof.
  induction bs as [|y bs IH]; simpl; [intros []|].
  intros H. destruct (Z.eqb_spec y b) as [E|E]; [reflexivity|].
  destruct H as [H|H]; [contradiction|]. rewrite IH by exact H. reflexivity.
Qed.

Lemma first_index_app_new (b : Z) (bs : list Z) :
  ~ In b bs -> first_index b (bs ++ [b]) = length bs.
Proof.
  induction bs as [|y bs IH]; simpl; intros H.
  - rewrite Z.eqb_refl. reflexivity.
  - destruct (Z.eqb_spec y b) as [E|E]; [exfalso; apply H; left; exact E|].
    rewrite IH; [reflexivity|]. intros Hin. apply H. right. exact Hin.
Qed.

Lemma seen_before_NoDup (bs l : list Z) :
  StronglySorted (seen_before bs) l -> NoDup l.
Proof.
  induction l as [|a l IH]; intros Hs; constructor;
    apply StronglySorted_inv in Hs; destruct Hs as [Hs Ha].
  - intros Hin. rewrite Forall_forall in Ha. specialize (Ha a Hin).
    unfold seen_before in Ha. lia.
  - apply IH. exact Hs.
Qed.

Lemma counter_incr_keys_old (c : counter) (b : Z) :
  In b (map fst c) -> map fst (counter_incr c b) = map fst c.
Proof.
  induction c as [|[k v] c IH]; simpl; [intros []|].
  intros H. destruct (Z.eqb_spec k b) as [E|E]; simpl; [reflexivity|].
  destruct H as [H|H]; [contradiction|]. rewrite IH by exact H. reflexivity.
Qed.

Lemma counter_incr_keys_new (c : counter) (b : Z) :
  ~ In b (map fst c) -> map fst (counter_incr c b) = map fst c ++ [b].
Proof.
  induction c as [|[k v] c IH]; simpl; intros H; [reflexivity|].
  destruct (Z.eqb_spec k b) as [E|E]; [exfalso; apply H; left; exact E|].
  simpl. rewrite IH; [reflexivity|]. intros Hin. apply H. right. exact Hin.
Qed.

Lemma counter_get_incr (c : counter) (b k : Z) :
  counter_get (counter_incr c b) k =
  counter_get c k + (if Z.eq_dec b k then 1 else 0).
Proof.
  induction c as [|[k' v] c IH]; simpl.
  - destruct (Z.eqb_spec b k), (Z.eq_dec b k); congruence.
  - destruct (Z.eqb_spec k' b) as [E|E]; simpl.
    + subst k'. destruct (Z.eqb_spec b k), (Z.eq_dec b k); try congruence; lia.
    + destruct (Z.eqb_spec k' k) as [E'|E'].
      * destruct (Z.eq_dec b k); [congruence | lia].
      * exact IH.
Qed.

Lemma counter_get_entry (c : counter) (k : Z) (v : nat) :
  NoDup (map fst c) -> In (k, v) c -> counter_get c k = v.
Proof.
  induction c as [|[k' v'] c IH]; simpl; intros Hnd Hin; [contradiction|].
  inversion Hnd as [|? ? Hk' Hnd']; subst.
  destruct Hin as [Hin|Hin].
  - inversion Hin; subst. rewrite Z.eqb_refl. reflexivity.
  - destruct (Z.eqb_spec k' k) as [E|E].
    + subst k'. exfalso. apply Hk'.
      change k with (fst (k, v)). apply in_map. exact Hin.
    + apply IH; assumption.
Qed.

Lemma count_occ_snoc (pre : list Z) (b k : Z) :
  count_occ Z.eq_dec (pre ++ [b]) k =
  count_occ Z.eq_dec pre k + (if Z.eq_dec b k then 1 else 0).
Proof.
  rewrite count_occ_app. simpl. destruct (Z.eq_dec b k); reflexivity.
Qed.

(** Counting one more item keeps the counter in step with the items. *)
Lemma counts_incr (pre : list Z) (c : counter) (b : Z) :
  counts pre c -> counts (pre ++ [b]) (counter_incr c b).
Proof.
  intros (Hs & Hk & Hg). unfold counts.
  assert (Hold : forall x y, In x (map fst c) -> In y (map fst c) ->
                   seen_before pre x y -> seen_before (pre ++ [b]) x y).
  { intros x y Hx Hy. unfold seen_before.
    rewrite !first_index_app_in by (apply Hk; assumption). tauto. }
  split; [|split].
  - destruct (in_dec Z.eq_dec b (map fst c)) as [Hin|Hin].
    + rewrite counter_incr_keys_old by exact Hin.
      apply StronglySorted_weaken with (R := seen_before pre); assumption.
    + rewrite counter_incr_keys_new by exact Hin.
      apply StronglySorted_snoc.
      * apply StronglySorted_weaken with (R := seen_before pre); assumption.
      * apply Forall_forall. intros x Hx. unfold seen_before.
        rewrite first_index_app_in by (apply Hk; exact Hx).
        rewrite first_index_app_new by (intros H; apply Hin, Hk, H).
        apply first_index_bound, Hk, Hx.
  - intros k. rewrite in_app_iff. simpl.
    destruct (in_dec Z.eq_dec b (map fst c)) as [Hin|Hin].
    + rewrite counter_incr_keys_old by exact Hin. rewrite Hk.
      split; [tauto|]. intros [H|[<-|[]]]; [exact H | apply Hk, Hin].
    + rewrite counter_incr_keys_new by exact Hin. rewrite in_app_iff, Hk.
      simpl. tauto.
  - intros k. rewrite counter_get_incr, count_occ_snoc, Hg. reflexivity.
Qed.

Lemma counts_fold (bs pre : list Z) (c : counter) :
  counts pre c -> counts (pre ++ bs) (fold_left counter_incr bs c).
Proof.
  revert pre c. induction bs as [|b bs IH]; intros pre c H; simpl.
  - rewrite app_nil_r. exact H.
  - replace (pre ++ b :: bs) with ((pre ++ [b]) ++ bs)
      by (rewrite <- app_assoc; reflexivity).
    apply IH, counts_incr, H.
Qed.

Lemma counts_Counter (bs : list Z) : counts bs (Counter bs).
Proof.
  unfold Counter. apply (counts_fold bs [] []).
  unfold counts. simpl. repeat split; try constructor; tauto.
Qed.

Lemma insert_desc_In (x y : Z * nat) (l : counter) :
  In y (insert_desc x l) <-> y = x \/ In y l.
Proof.
  induction l as [|z l IH]; simpl.
  - intuition congruence.
  - destruct (snd x <? snd z); simpl; [rewrite IH|]; intuition congruence.
Qed.

Lemma sorted_desc_In (y : Z * nat) (c : counter) :
  In y (sorted_desc c) <-> In y c.
Proof.
  induction c as [|x c IH]; simpl; [tauto|].
  rewrite insert_desc_In, IH. intuition congruence.
Qed.

(** Putting [x], which precedes every entry of [l] in the tie order, into the
    sorted [l] keeps it sorted. *)
Lemma insert_desc_sorted (tie : Z * nat -> Z * nat -> Prop)
      (x : Z * nat) (l : counter) :
  StronglySorted (sorted_order tie) l -> Forall (tie x) l ->
  StronglySorted (sorted_order tie) (insert_desc x l).
Proof.
  induction l as [|y l IH]; simpl; intros Hs Ht.
  - constructor; constructor.
  - apply StronglySorted_inv in Hs. destruct Hs as [Hs Hy].
    inversion Ht as [|? ? Hxy Hxl]; subst.
    destruct (Nat.ltb_spec (snd x) (snd y)) as [Hlt|Hge].
    + constructor; [apply IH; assumption|].
      apply Forall_forall. intros z Hz. apply insert_desc_In in Hz.
      destruct Hz as [->|Hz].
      * left. exact Hlt.
      * rewrite Forall_forall in Hy. apply Hy, Hz.
    + constructor; [constructor; assumption|].
      constructor.
      * unfold sorted_order. destruct (Nat.eq_dec (snd x) (snd y)); [right|left];
          [split; assumption | lia].
      * apply Forall_forall. intros z Hz.
        rewrite Forall_forall in Hy, Hxl.
        specialize (Hy z Hz). specialize (Hxl z Hz).
        unfold sorted_order in *.
        destruct (Nat.eq_dec (snd x) (snd z)); [right; split; assumption|].
        left. lia.
Qed.

Lemma sorted_desc_sorted (tie : Z * nat -> Z * nat -> Prop) (c : counter) :
  StronglySorted tie c -> StronglySorted (sorted_order tie) (sorted_desc c).
Proof.
  induction c as [|x c IH]; simpl; intros Hs.
  - constructor.
  - apply StronglySorted_inv in Hs. destruct Hs as [Hs Hx].
    apply insert_desc_sorted; [apply IH; exact Hs|].
    rewrite Forall_forall in *. intros y Hy. apply Hx, sorted_desc_In, Hy.
Qed.

End CounterFacts.

Section TopBucketsFacts.

(** The entries of [Counter(bs)] are the items of [bs] with their
    multiplicities, and no key comes twice. *)
Lemma Counter_entries (bs : list Z) (kv : Z * nat) :
  In kv (Counter bs) ->
  In (fst kv) bs /\ snd kv = count_occ Z.eq_dec bs (fst kv).
Proof.
  destruct (counts_Counter bs) as (Hs & Hk & Hg). intros Hin. split.
  - apply Hk, in_map, Hin.
  - rewrite <- Hg. symmetry. apply counter_get_entry.
    + apply seen_before_NoDup with (bs := bs). exact Hs.
    + destruct kv. exact Hin.
Qed.

Lemma sorted_order_ranks (bs : list Z) (x y : Z * nat) :
  In x (Counter bs) -> In y (Counter bs) ->
  sorted_order (fun a b => seen_before bs (fst a) (fst b)) x y ->
  ranks_before bs (fst x) (fst y).
Proof.
  intros Hx Hy. apply Counter_entries in Hx, Hy.
  destruct Hx as [_ Hx], Hy as [_ Hy].
  unfold sorted_order, ranks_before. rewrite Hx, Hy. tauto.
Qed.

(** [most_common k] of [Counter(bs)]: the entries carry the multiplicities
    in [bs], stand in ranking order, and everything left out ranks after
    all of them. *)
Lemma most_common_ranked (bs : list Z) (k : nat) :
  let top := most_common k (Counter bs) in
  Forall (fun kv => In (fst kv) bs /\
                    snd kv = count_occ Z.eq_dec bs (fst kv)) top /\
  StronglySorted (ranks_before bs) (map fst top) /\
  length top <= k /\
  (forall b, In b bs -> ~ In b (map fst top) ->
             length top = k /\
             Forall (fun b' => ranks_before bs b' b) (map fst top)).
Proof.
  intros top.
  set (tie := fun a b : Z * nat => seen_before bs (fst a) (fst b)).
  set (l := sorted_desc (Counter bs)).
  assert (Hsorted : StronglySorted (sorted_order tie) l).
  { apply sorted_desc_sorted.
    apply (proj2 (StronglySorted_map (seen_before bs) fst (Counter bs))).
    destruct (counts_Counter bs) as (Hs & _ & _). exact Hs. }
  assert (Hsplit : l = top ++ skipn k l)
    by (symmetry; apply firstn_skipn).
  assert (Htop : forall x, In x top -> In x (Counter bs)).
  { intros x Hx. apply sorted_desc_In. fold l. rewrite Hsplit.
    apply in_or_app. left. exact Hx. }
  rewrite Hsplit in Hsorted.
  apply StronglySorted_app_inv in Hsorted.
  destruct Hsorted as (Hs1 & _ & Hcross).
  split; [|split; [|split]].
  - apply Forall_forall. intros kv Hkv. apply Counter_entries, Htop, Hkv.
  - apply (proj1 (StronglySorted_map (ranks_before bs) fst top)).
    apply StronglySorted_weaken with (R := sorted_order tie); [|exact Hs1].
    intros x y Hx Hy. apply sorted_order_ranks; apply Htop; assumption.
  - apply firstn_le_length.
  - intros b Hb Hout.
    assert (Hkey : In b (map fst (Counter bs)))
      by (apply (counts_Counter bs); exact Hb).
    apply in_map_iff in Hkey. destruct Hkey as ([b0 v] & Eb & Hin).
    simpl in Eb. subst b0.
    assert (Hrest : In (b, v) (skipn k l)).
    { apply sorted_desc_In in Hin. fold l in Hin. rewrite Hsplit in Hin.
      apply in_app_or in Hin. destruct Hin as [Hin|Hin]; [|exact Hin].
      exfalso. apply Hout. change b with (fst (b, v)). apply in_map, Hin. }
    split.
    + unfold top, most_common. fold l. rewrite length_firstn.
      destruct (Nat.le_gt_cases (length l) k) as [Hle|Hgt]; [|lia].
      rewrite skipn_all2 in Hrest by exact Hle. contradiction.
    + apply Forall_forall. intros b' Hb'.
      apply in_map_iff in Hb'. destruct Hb' as (x & <- & Hx).
      change b with (fst (b, v)).
      apply sorted_order_ranks;
        [apply Htop, Hx | exact Hin | apply Hcross; assumption].
Qed.

Context {L : Libraries}.
Variable clock : nat -> float.

Lemma process_event_value_window (event : Event) (w w' : World) :
  process_event clock event w = Ok w' ->
  value_window w' = deque_append (value_window w) (value event).
Proof.
  unfold process_event.
  destruct (py_truediv (value event - mean w)%float (n w + 1)); simpl.
  - intros H. inversion H; subst. reflexivity.
  - discriminate.
Qed.

Lemma foldM_value_window (events : list Event) (w w' : World) :
  foldM (process_event clock) events w = Ok w' ->
  value_window w' = push_all (value_window w) (map value events).
Proof.
  revert w. induction events as [|e events IH]; intros w; simpl.
  - intros H. inversion H; subst. reflexivity.
  - destruct (process_event clock e w) as [w1|x] eqn:E1; simpl; [|discriminate].
    intros H. apply IH in H. rewrite H.
    rewrite (process_event_value_window e w w1 E1). reflexivity.
Qed.

End TopBucketsFacts.

(** C6: the top items of a summary are computed from the rounded values of
    the value window as the batch leaves it, that is from the most recent
    [m] values for a window bounded by [m], not from the whole history; they
    are at most 3 buckets with their multiplicities in the window, in the
    order most frequent first with ties in the order of first occurrence in
    the window; and every bucket of the window that is left out ranks after
    each of the three in that order. *)
Theorem top_buckets_of_window :
  forall (L : Libraries) (clock : nat -> float) (events : list Event)
         (w : World) (s : BatchSummary) (w' : World),
    process_batch clock events w = Ok (s, w') ->
    exists bs,
      mapM py_round (snapshot (value_window w')) = Ok bs /\
      top_items s = most_common 3 (Counter bs) /\
      (forall m, maxlen (value_window w) = Some m ->
                 length (snapshot (value_window w)) <= m ->
                 let history := snapshot (value_window w) ++ map value events in
                 snapshot (value_window w') =
                   skipn (length history - m) history) /\
      Forall (fun kv => In (fst kv) bs /\
                        snd kv = count_occ Z.eq_dec bs (fst kv))
             (top_items s) /\
      StronglySorted (ranks_before bs) (map fst (top_items s)) /\
      length (top_items s) <= 3 /\
      (forall b, In b bs -> ~ In b (map fst (top_items s)) ->
                 length (top_items s) = 3 /\
                 Forall (fun b' => ranks_before bs b' b)
                        (map fst (top_items s))).
Proof.
  intros L clock events w s w' H. unfold process_batch in H.
  destruct (foldM (process_event clock) events w) as [w1|x] eqn:Efold;
    simpl in H; [|discriminate].
  destruct (summarise w1) as [s1|x] eqn:Esum; simpl in H; [|discriminate].
  inversion H; subst.
  apply summarise_returns in Esum. destruct Esum as (Etop & _).
  unfold top_buckets in Etop.
  destruct (mapM py_round (snapshot (value_window w'))) as [bs|x] eqn:Eround;
    simpl in Etop; [|discriminate].
  inversion Etop as [Htop].
  exists bs. split; [reflexivity|]. split; [reflexivity|]. split.
  - intros m Hm Hlen. simpl. unfold snapshot in *.
    rewrite (foldM_value_window clock events w w' Efold).
    apply push_all_items; assumption.
  - apply (most_common_ranked bs 3).
Qed.

Lemma top_buckets_of_window_witness :
  process_batch (L := demo_libraries) (fun _ => 3%float) demo_events (fresh 0)
    = Ok (fst demo_outcome, snd demo_outcome) /\
  top_items (fst demo_outcome) = [(50%Z, 3); (61%Z, 2); (47%Z, 1)] /\
  exists bs,
    mapM py_round (snapshot (value_window (snd demo_outcome))) = Ok bs /\
    StronglySorted (ranks_before bs) (map fst (top_items (fst demo_outcome))).
Proof.
  assert (H : process_batch (L := demo_libraries) (fun _ => 3%float)
                demo_events (fresh 0)
              = Ok (fst demo_outcome, snd demo_outcome))
    by (vm_compute; reflexivity).
  split; [exact H|]. split; [vm_compute; reflexivity|].
  destruct (top_buckets_of_window demo_libraries (fun _ => 3%float)
              demo_events (fresh 0) (fst demo_outcome) (snd demo_outcome) H)
    as (bs & Hr & _ & _ & _ & Hs & _).
  exists bs. split; [exact Hr | exact Hs].
Defined.

(** * Further properties of the aggregation *)

Section AggregationLaws.

Context {L : Libraries}.
Variable clock : nat -> float.

Lemma process_event_fields (event : Event) (w w' : World) :
  process_event clock event w = Ok w' ->
  n w' = (n w + 1)%Z /\
  ticks w' = S (ticks w) /\
  latency_window w' =
    deque_append (latency_window w) (clock (ticks w) - timestamp event)%float.
Proof.
  unfold process_event.
  destruct (py_truediv (value event - mean w)%float (n w + 1)); simpl.
  - intros H. inversion H; subst. simpl. repeat split.
  - discriminate.
Qed.

(** What a fold that returns has done to the counter, the clock and the
    windows. *)
Lemma foldM_process_event_fields (events : list Event) (w w' : World) :
  foldM (process_event clock) events w = Ok w' ->
  n w' = (n w + Z.of_nat (length events))%Z /\
  ticks w' = ticks w + length events /\
  value_window w' = push_all (value_window w) (map value events) /\
  latency_window w' =
    push_all (latency_window w) (latencies_of clock (ticks w) events).
Proof.
  revert w. induction events as [|e events IH]; intros w; simpl.
  - intros H. inversion H; subst. repeat split; lia.
  - destruct (process_event clock e w) as [w1|x] eqn:E1; simpl; [|discriminate].
    intros H. apply IH in H. destruct H as (Hn & Ht & Hv & Hl).
    destruct (process_event_fields e w w1 E1) as (Hn1 & Ht1 & Hl1).
    rewrite (process_event_value_window clock e w w1 E1) in Hv.
    rewrite Hn, Ht, Hv, Hl, Hn1, Ht1, Hl1. repeat split; lia.
Qed.

(** A call of [process_batch] that returns has folded all its events, and
    its summary reads the state the fold left. *)
Lemma process_batch_returns (events : list Event) (w w' : World)
      (s : BatchSummary) :
  process_batch clock events w = Ok (s, w') ->
  foldM (process_event clock) events w = Ok w' /\
  top_buckets w' = Ok (top_items s) /\
  events_processed s = n w'.
Proof.
  unfold process_batch.
  destruct (foldM (process_event clock) events w) as [w1|x]; simpl;
    [|discriminate].
  destruct (summarise w1) as [s1|x] eqn:Esum; simpl; [|discriminate].
  intros H. inversion H; subst.
  apply summarise_returns in Esum. destruct Esum as (Etop & _ & _ & Hn & _).
  split; [reflexivity | split; [exact Etop | exact Hn]].
Qed.

Lemma foldM_app (xs ys : list Event) (w : World) :
  foldM (process_event clock) (xs ++ ys) w =
  (w1 <- foldM (process_event clock) xs w ;;
   foldM (process_event clock) ys w1).
Proof.
  revert w. induction xs as [|x xs IH]; intros w; simpl.
  - reflexivity.
  - destruct (process_event clock x w) as [w1|e]; simpl; [apply IH | reflexivity].
Qed.

Lemma latencies_of_length (t : nat) (events : list Event) :
  length (latencies_of clock t events) = length events.
Proof.
  revert t. induction events as [|e events IH]; intros t; simpl;
    [reflexivity | rewrite IH; reflexivity].
Qed.

Lemma push_all_count {A : Type} (xs : list A) (d : deque A) (m : nat) :
  maxlen d = Some m ->
  length (deque_items d) <= m ->
  length (deque_items (push_all d xs)) =
    Nat.min (length (deque_items d) + length xs) m.
Proof.
  intros Hm Hlen. rewrite (push_all_items xs d m Hm Hlen).
  rewrite length_skipn, length_app. lia.
Qed.

Lemma mapM_py_round_rejects (xs : list float) (v : float) :
  In v xs -> roundable v = false -> exists x, mapM py_round xs = Raise x.
Proof.
  unfold roundable.
  induction xs as [|y xs IH]; simpl; intros Hin Hv; [contradiction|].
  destruct (py_round y) as [z|x] eqn:Ey; simpl.
  - destruct Hin as [->|Hin]; [rewrite Ey in Hv; discriminate|].
    destruct (IH Hin Hv) as [x Ex]. rewrite Ex. simpl. exists x. reflexivity.
  - exists x. reflexivity.
Qed.

(** [round] rejects [nan]. *)
Lemma nan_not_roundable (x : float) :
  is_nan x = true -> py_round x = Raise ValueError /\ roundable x = false.
Proof.
  intros H. unfold roundable, py_round, Prim2SF. rewrite H. split; reflexivity.
Qed.

End AggregationLaws.

(** X1: the count a summary reports is cumulative: the count before the call
    plus the number of events of the batch; the call reads the clock once
    per event. *)
Theorem processed_count_is_cumulative :
  forall (L : Libraries) (clock : nat -> float) (events : list Event)
         (w : World) (s : BatchSummary) (w' : World),
    process_batch clock events w = Ok (s, w') ->
    events_processed s = (n w + Z.of_nat (length events))%Z /\
    n w' = events_processed s /\
    ticks w' = ticks w + length events.
Proof.
  intros L clock events w s w' H.
  apply process_batch_returns in H. destruct H as (Hfold & _ & Hs).
  apply foldM_process_event_fields in Hfold.
  destruct Hfold as (Hn & Ht & _). rewrite Hs, Hn.
  split; [reflexivity | split; [reflexivity | exact Ht]].
Qed.

Lemma processed_count_is_cumulative_witness :
  process_batch (L := demo_libraries) (fun _ => 3%float) demo_events (fresh 0)
    = Ok (fst demo_outcome, snd demo_outcome) /\
  events_processed (fst demo_outcome) = 6%Z.
Proof.
  assert (H : process_batch (L := demo_libraries) (fun _ => 3%float)
                demo_events (fresh 0)
              = Ok (fst demo_outcome, snd demo_outcome))
    by (vm_compute; reflexivity).
  split; [exact H|].
  destruct (processed_count_is_cumulative demo_libraries (fun _ => 3%float)
              demo_events (fresh 0) (fst demo_outcome) (snd demo_outcome) H)
    as (Hs & _).
  rewrite Hs. reflexivity.
Defined.

(** X2: the two windows stay within [MAX_WINDOW_SIZE] and in step with each
    other through every batch; after a batch they hold the smaller of
    [MAX_WINDOW_SIZE] and what they held plus the size of the batch. *)
Theorem windows_stay_bounded :
  forall (L : Libraries) (clock : nat -> float) (events : list Event)
         (w : World) (s : BatchSummary) (w' : World),
    windows_ok w ->
    process_batch clock events w = Ok (s, w') ->
    windows_ok w' /\
    length (snapshot (value_window w')) =
      Nat.min (length (snapshot (value_window w)) + length events)
              MAX_WINDOW_SIZE.
Proof.
  intros L clock events w s w' (Hmv & Hml & Heq & Hle) H.
  apply process_batch_returns in H. destruct H as (Hfold & _).
  apply foldM_process_event_fields in Hfold.
  destruct Hfold as (_ & _ & Hv & Hl). unfold snapshot in *.
  assert (Hcv : length (deque_items (value_window w')) =
                Nat.min (length (deque_items (value_window w)) + length events)
                        MAX_WINDOW_SIZE).
  { rewrite Hv, (push_all_count _ _ MAX_WINDOW_SIZE Hmv Hle), length_map.
    reflexivity. }
  assert (Hcl : length (deque_items (latency_window w')) =
                Nat.min (length (deque_items (value_window w)) + length events)
                        MAX_WINDOW_SIZE).
  { rewrite Hl, (push_all_count _ _ MAX_WINDOW_SIZE Hml), latencies_of_length;
      [rewrite Heq; reflexivity | rewrite <- Heq; exact Hle]. }
  split; [|exact Hcv].
  unfold windows_ok, snapshot. repeat split.
  - rewrite Hv, push_all_maxlen. exact Hmv.
  - rewrite Hl, push_all_maxlen. exact Hml.
  - rewrite Hcv, Hcl. reflexivity.
  - rewrite Hcv. apply Nat.le_min_r.
Qed.

Lemma windows_stay_bounded_witness :
  windows_ok (fresh (L := demo_libraries) 0) /\
  process_batch (L := demo_libraries) (fun _ => 3%float) demo_events (fresh 0)
    = Ok (fst demo_outcome, snd demo_outcome) /\
  length (snapshot (value_window (snd demo_outcome))) = 6.
Proof.
  assert (H0 : windows_ok (fresh (L := demo_libraries) 0)).
  { unfold windows_ok. simpl. repeat split. apply Nat.le_0_l. }
  assert (H : process_batch (L := demo_libraries) (fun _ => 3%float)
                demo_events (fresh 0)
              = Ok (fst demo_outcome, snd demo_outcome))
    by (vm_compute; reflexivity).
  split; [exact H0 | split; [exact H|]].
  destruct (windows_stay_bounded demo_libraries (fun _ => 3%float)
              demo_events (fresh 0) (fst demo_outcome) (snd demo_outcome)
              H0 H) as (_ & Hlen).
  rewrite Hlen. reflexivity.
Defined.

(** X3: where the batches are cut does not matter: once a batch has been
    aggregated, aggregating a second batch gives what aggregating the two as
    one batch from the earlier state gives, summary, state and exception
    alike. *)
Theorem batches_compose :
  forall (L : Libraries) (clock : nat -> float) (xs ys : list Event)
         (w : World) (s1 : BatchSummary) (w1 : World),
    process_batch clock xs w = Ok (s1, w1) ->
    process_batch clock (xs ++ ys) w = process_batch clock ys w1.
Proof.
  intros L clock xs ys w s1 w1 H.
  apply process_batch_returns in H. destruct H as (Hfold & _).
  unfold process_batch. rewrite foldM_app, Hfold. reflexivity.
Qed.

Lemma batches_compose_witness :
  process_batch (L := demo_libraries) (fun _ => 3%float) demo_events (fresh 0)
    = Ok (fst demo_outcome, snd demo_outcome) /\
  process_batch (L := demo_libraries) (fun _ => 3%float)
    (demo_events ++ nan_events) (fresh 0) =
  process_batch (L := demo_libraries) (fun _ => 3%float)
    nan_events (snd demo_outcome).
Proof.
  assert (H : process_batch (L := demo_libraries) (fun _ => 3%float)
                demo_events (fresh 0)
              = Ok (fst demo_outcome, snd demo_outcome))
    by (vm_compute; reflexivity).
  split; [exact H|].
  exact (batches_compose demo_libraries (fun _ => 3%float)
           demo_events nan_events (fresh 0)
           (fst demo_outcome) (snd demo_outcome) H).
Defined.

(** X4: one value that [round] rejects, a [nan] or an infinity, makes the
    aggregation of its batch raise [ValueError] or [OverflowError], for every
    batch that fits the window: the value is still in the window when the
    buckets are counted. *)
Theorem unroundable_value_raises :
  forall (L : Libraries) (clock : nat -> float) (events : list Event)
         (w : World) (e : Event),
    (0 <= n w)%Z ->
    maxlen (value_window w) = Some MAX_WINDOW_SIZE ->
    length (snapshot (value_window w)) <= MAX_WINDOW_SIZE ->
    length events <= MAX_WINDOW_SIZE ->
    In e events ->
    roundable (value e) = false ->
    exists x,
      process_batch clock events w = Raise x /\
      (x = ValueError \/ x = OverflowError).
Proof.
  intros L clock events w e Hn Hm Hlen Hfit Hin Hbad.
  destruct (foldM_process_event_ok clock events w Hn)
    as (w' & Efold & _ & _ & Hv & _).
  assert (Hwin : In (value e) (snapshot (value_window w'))).
  { unfold snapshot in *. rewrite Hv.
    rewrite (push_all_items _ _ MAX_WINDOW_SIZE Hm Hlen).
    rewrite skipn_app. apply in_or_app. right.
    rewrite length_app, length_map.
    replace (length (deque_items (value_window w)) + length events
             - MAX_WINDOW_SIZE - length (deque_items (value_window w)))
      with 0 by lia.
    simpl. apply in_map. exact Hin. }
  destruct (mapM_py_round_rejects _ _ Hwin Hbad) as [x Ex].
  assert (Etop : top_buckets w' = Raise x)
    by (unfold top_buckets; rewrite Ex; reflexivity).
  exists x. split.
  - unfold process_batch. rewrite Efold. simpl.
    unfold summarise. rewrite Etop. reflexivity.
  - apply top_buckets_raises with (w := w'). exact Etop.
Qed.

Lemma unroundable_value_raises_witness :
  ((0 <= n (fresh (L := demo_libraries) 0))%Z /\
   In (mk_event 2 PrimFloat.nan 1) nan_events /\
   roundable (value (mk_event 2 PrimFloat.nan 1)) = false) /\
  exists x,
    process_batch (L := demo_libraries) (fun _ => 3%float) nan_events (fresh 0)
      = Raise x /\
    (x = ValueError \/ x = OverflowError).
Proof.
  assert (H1 : (0 <= n (fresh (L := demo_libraries) 0))%Z) by (simpl; lia).
  assert (H2 : In (mk_event 2 PrimFloat.nan 1) nan_events)
    by (right; left; reflexivity).
  assert (H3 : roundable (value (mk_event 2 PrimFloat.nan 1)) = false)
    by reflexivity.
  split; [repeat split; assumption|].
  apply (unroundable_value_raises demo_libraries (fun _ => 3%float)
           nan_events (fresh 0) (mk_event 2 PrimFloat.nan 1) H1).
  - reflexivity.
  - simpl. apply Nat.le_0_l.
  - unfold nan_events, MAX_WINDOW_SIZE. simpl. lia.
  - exact H2.
  - exact H3.
Defined.

(** * Further properties of the batching loop *)

Section SubscriberLaws.

Context {L : Libraries}.
Variable clock : nat -> float.

Lemma events_of_cons (t : Taken) (takes : list Taken) :
  events_of (t :: takes) = events_of [t] ++ events_of takes.
Proof. destruct t; reflexivity. Qed.

(** A turn that returns has moved the taken event into the buffer or, with
    the whole buffer, into the batch; a turn that raises had handed the whole
    buffer over. *)
Lemma subscriber_iter_events (t : Taken) (s : SubState) (w : World) :
  match subscriber_iter clock t s w with
  | (flushed, Ok (s', _)) =>
      match flushed with Some b => b | None => [] end ++ buffer s' =
      buffer s ++ events_of [t]
  | (flushed, Raise _) => flushed = Some (buffer s ++ events_of [t])
  end.
Proof.
  pose proof (subscriber_iter_flushed clock t s w) as Hf.
  pose proof (subscriber_iter_next clock t s) as Hn.
  destruct (subscriber_iter clock t s w) as [flushed [[s' w']|x]] eqn:E;
    simpl in Hf.
  - specialize (Hn s' w w'). rewrite E in Hn. simpl in Hn.
    specialize (Hn eq_refl). rewrite Hf in Hn |- *. destruct t as [event|].
    + simpl. destruct (_ || _).
      * destruct Hn as [-> _]. rewrite app_nil_r. reflexivity.
      * destruct Hn as [_ ->]. reflexivity.
    + simpl. rewrite app_nil_r. destruct (buffer s) as [|e l].
      * destruct Hn as [_ ->]. reflexivity.
      * destruct Hn as [-> _]. rewrite app_nil_r. reflexivity.
  - clear Hn. unfold subscriber_iter in E. destruct t as [event|]; simpl.
    + destruct (BATCH_SIZE <=? length (buffer s ++ [event])).
      * inversion E; subst. reflexivity.
      * simpl in E.
        destruct (MAX_DELAY <=? clock (ticks w) - start s)%float;
          inversion E; subst. reflexivity.
    + rewrite app_nil_r. destruct (buffer s) as [|e l]; inversion E; subst.
      reflexivity.
Qed.

Lemma subscriber_loop_events (takes : list Taken) (s : SubState) (w : World) :
  match subscriber_loop clock takes s w with
  | (batches, Ok (s', _)) =>
      concat batches ++ buffer s' = buffer s ++ events_of takes
  | (batches, Raise _) =>
      exists rest, concat batches ++ rest = buffer s ++ events_of takes
  end.
Proof.
  revert s w. induction takes as [|t takes IH]; intros s w.
  - simpl. rewrite app_nil_r. reflexivity.
  - rewrite events_of_cons. simpl subscriber_loop.
    pose proof (subscriber_iter_events t s w) as Hi.
    destruct (subscriber_iter clock t s w) as [flushed [[s1 w1]|x]].
    + specialize (IH s1 w1).
      destruct (subscriber_loop clock takes s1 w1) as [batches [[s' w']|x]].
      * rewrite app_assoc, <- Hi, <- app_assoc, <- IH.
        destruct flushed as [b|]; simpl; rewrite ?app_assoc; reflexivity.
      * destruct IH as [rest IH]. exists rest.
        rewrite app_assoc, <- Hi, <- app_assoc, <- IH.
        destruct flushed as [b|]; simpl; rewrite ?app_assoc; reflexivity.
    + exists (events_of takes). rewrite Hi. simpl.
      rewrite app_nil_r, <- app_assoc. reflexivity.
Qed.

(** A flush that returns has counted every event of the batch. *)
Lemma flush_count (buf : list Event) (w : World) (s' : SubState) (w' : World) :
  flush clock buf w = Ok (s', w') ->
  n w' = (n w + Z.of_nat (length buf))%Z.
Proof.
  unfold flush.
  destruct (process_batch clock buf w) as [[sm w1]|x] eqn:E; simpl;
    [|discriminate].
  intros H. inversion H; subst. simpl.
  apply process_batch_returns in E. destruct E as (Hfold & _).
  apply foldM_process_event_fields in Hfold. apply Hfold.
Qed.

Lemma subscriber_iter_count (t : Taken) (s s' : SubState) (w w' : World) :
  snd (subscriber_iter clock t s w) = Ok (s', w') ->
  n w' =
    (n w + Z.of_nat (length match fst (subscriber_iter clock t s w) with
                            | Some b => b
                            | None => []
                            end))%Z.
Proof.
  unfold subscriber_iter. destruct t as [event|].
  - destruct (BATCH_SIZE <=? length (buffer s ++ [event])); simpl.
    + apply flush_count.
    + destruct (MAX_DELAY <=? clock (ticks w) - start s)%float; simpl.
      * intros H. apply flush_count in H. exact H.
      * intros H. inversion H; subst. simpl. lia.
  - destruct (buffer s) as [|e l]; simpl.
    + intros H. inversion H; subst. lia.
    + apply flush_count.
Qed.

Lemma subscriber_loop_count (takes : list Taken) (s s' : SubState)
      (w w' : World) (batches : list (list Event)) :
  subscriber_loop clock takes s w = (batches, Ok (s', w')) ->
  n w' = (n w + Z.of_nat (length (concat batches)))%Z.
Proof.
  revert s w batches. induction takes as [|t takes IH]; intros s w batches.
  - simpl. intros H. inversion H; subst. simpl. lia.
  - simpl.
    pose proof (fun s1 w1 => subscriber_iter_count t s s1 w w1) as Hi.
    destruct (subscriber_iter clock t s w) as [flushed [[s1 w1]|x]].
    + specialize (Hi s1 w1 eq_refl). simpl in Hi.
      specialize (IH s1 w1).
      destruct (subscriber_loop clock takes s1 w1) as [batches1 r].
      intros H. inversion H; subst.
      specialize (IH batches1 eq_refl). rewrite IH, Hi.
      destruct flushed as [b|]; simpl; rewrite ?length_app; lia.
    + intros H. inversion H.
Qed.

(** A turn that finds the take timed out leaves an empty buffer. *)
Lemma subscriber_loop_timeout (takes : list Taken) (s s' : SubState)
      (w w' : World) (batches : list (list Event)) :
  subscriber_loop clock (takes ++ [TimedOut]) s w = (batches, Ok (s', w')) ->
  buffer s' = [].
Proof.
  revert s w batches. induction takes as [|t takes IH]; intros s w batches.
  - cbn [app subscriber_loop].
    pose proof (fun s1 w1 => subscriber_iter_next clock TimedOut s s1 w w1)
      as Hn.
    pose proof (subscriber_iter_flushed clock TimedOut s w) as Hf.
    destruct (subscriber_iter clock TimedOut s w) as [flushed [[s1 w1]|x]].
    + specialize (Hn s1 w1 eq_refl). simpl in Hn, Hf.
      intros H. inversion H; subst.
      destruct (buffer s) as [|e l].
      * destruct Hn as [_ ->]. reflexivity.
      * destruct Hn as [-> _]. reflexivity.
    + intros H. inversion H.
  - simpl.
    destruct (subscriber_iter clock t s w) as [flushed [[s1 w1]|x]].
    + specialize (IH s1 w1).
      destruct (subscriber_loop clock (takes ++ [TimedOut]) s1 w1)
        as [batches1 r].
      intros H. inversion H; subst. apply (IH batches1). reflexivity.
    + intros H. inversion H.
Qed.

End SubscriberLaws.

(** X5: the loop neither drops, repeats nor reorders an event: the batches it
    has flushed, followed by what is left in the buffer, are the events taken
    so far, in the order taken; when an aggregation raises, the batches up to
    and including the failing one are a prefix of the events taken. *)
Theorem subscriber_loses_no_event :
  forall (L : Libraries) (clock : nat -> float)
         (takes : list Taken) (w : World),
    match subscriber clock takes w with
    | (batches, Ok (s, _)) => concat batches ++ buffer s = events_of takes
    | (batches, Raise _) =>
        exists rest, concat batches ++ rest = events_of takes
    end.
Proof.
  intros L clock takes w. unfold subscriber, subscriber_init. simpl.
  apply (subscriber_loop_events clock takes).
Qed.

(** X6: when the loop returns, the event counter has grown by the number of
    events flushed, so every event taken is either counted or still in the
    buffer. *)
Theorem taken_events_counted_or_buffered :
  forall (L : Libraries) (clock : nat -> float) (takes : list Taken)
         (w : World) (batches : list (list Event)) (s : SubState) (w' : World),
    subscriber clock takes w = (batches, Ok (s, w')) ->
    n w' = (n w + Z.of_nat (length (concat batches)))%Z /\
    (n w' + Z.of_nat (length (buffer s)) =
     n w + Z.of_nat (length (events_of takes)))%Z.
Proof.
  intros L clock takes w batches s w' H.
  pose proof (subscriber_loop_events clock takes) as Hev.
  unfold subscriber, subscriber_init in H. simpl in H.
  specialize (Hev
                {| buffer := []; start := clock (ticks w) |}
                (snd (time_time clock w))).
  simpl in Hev.
  rewrite H in Hev.
  apply subscriber_loop_count in H. simpl in H.
  split; [exact H|].
  rewrite <- Hev, length_app. lia.
Qed.

Lemma taken_events_counted_or_buffered_witness :
  subscriber (L := demo_libraries) (fun _ => 3%float)
    (map Got demo_events ++ [TimedOut]) (fresh 0)
    = (fst demo_loop, Ok (fst demo_loop_end, snd demo_loop_end)) /\
  n (snd demo_loop_end) = 6%Z.
Proof.
  assert (H : subscriber (L := demo_libraries) (fun _ => 3%float)
                (map Got demo_events ++ [TimedOut]) (fresh 0)
              = (fst demo_loop, Ok (fst demo_loop_end, snd demo_loop_end)))
    by (vm_compute; reflexivity).
  split; [exact H|].
  destruct (taken_events_counted_or_buffered demo_libraries (fun _ => 3%float)
              (map Got demo_events ++ [TimedOut]) (fresh 0)
              (fst demo_loop) (fst demo_loop_end) (snd demo_loop_end) H)
    as (Hn & _).
  rewrite Hn. reflexivity.
Defined.

(** X7: no event outlives a timeout in the buffer: whenever the loop returns
    from a turn whose take timed out, the buffer is empty. *)
Theorem timeout_leaves_empty_buffer :
  forall (L : Libraries) (clock : nat -> float) (takes : list Taken)
         (w : World) (batches : list (list Event)) (s : SubState) (w' : World),
    subscriber clock (takes ++ [TimedOut]) w = (batches, Ok (s, w')) ->
    buffer s = [].
Proof.
  intros L clock takes w batches s w' H.
  unfold subscriber, subscriber_init in H. simpl in H.
  apply subscriber_loop_timeout in H. exact H.
Qed.

Lemma timeout_leaves_empty_buffer_witness :
  subscriber (L := demo_libraries) (fun _ => 3%float)
    (map Got demo_events ++ [TimedOut]) (fresh 0)
    = (fst demo_loop, Ok (fst demo_loop_end, snd demo_loop_end)) /\
  buffer (fst demo_loop_end) = [].
Proof.
  assert (H : subscriber (L := demo_libraries) (fun _ => 3%float)
                (map Got demo_events ++ [TimedOut]) (fresh 0)
              = (fst demo_loop, Ok (fst demo_loop_end, snd demo_loop_end)))
    by (vm_compute; reflexivity).
  split; [exact H|].
  exact (timeout_leaves_empty_buffer demo_libraries (fun _ => 3%float)
           (map Got demo_events) (fresh 0)
           (fst demo_loop) (fst demo_loop_end) (snd demo_loop_end) H).
Defined.

Section SizeTrigger.

Context {L : Libraries}.
Variable clock : nat -> float.

(** No two readings of the clock are [MAX_DELAY] apart. *)
Hypothesis clock_still :
  forall i j, (MAX_DELAY <=? clock i - clock j)%float = false.

Lemma events_of_map_Got (evs : list Event) : events_of (map Got evs) = evs.
Proof.
  induction evs as [|e evs IH]; simpl; [reflexivity | rewrite IH; reflexivity].
Qed.

Lemma concat_length_uniform {A : Type} (k : nat) (ls : list (list A)) :
  Forall (fun l => length l = k) ls -> length (concat ls) = k * length ls.
Proof.
  induction ls as [|l ls IH]; intros H; simpl; [lia|].
  inversion H; subst. rewrite length_app, IH by assumption. lia.
Qed.

(** Under a clock that stands still a turn that takes an event flushes only
    a full batch. *)
Lemma got_turn_full (e : Event) (s : SubState) (w : World) :
  length (buffer s) < BATCH_SIZE ->
  (exists j, start s = clock j) ->
  (forall b, fst (subscriber_iter clock (Got e) s w) = Some b ->
             length b = BATCH_SIZE) /\
  (forall s' w', snd (subscriber_iter clock (Got e) s w) = Ok (s', w') ->
                 length (buffer s') < BATCH_SIZE /\
                 exists j, start s' = clock j).
Proof.
  intros Hlen [j Hj]. split.
  - intros b. rewrite subscriber_iter_flushed, Hj, clock_still, orb_false_r.
    destruct (Nat.leb_spec BATCH_SIZE (length (buffer s ++ [e]))) as [H|H];
      [|discriminate].
    intros Hb. inversion Hb; subst. rewrite length_app in *. simpl in *. lia.
  - intros s' w' H. split.
    + apply (proj2 (subscriber_iter_bounds clock (Got e) s w Hlen) s' w' H).
    + apply subscriber_iter_next in H.
      destruct (fst (subscriber_iter clock (Got e) s w)).
      * destruct H as [_ H]. eexists. exact H.
      * destruct H as [H _]. exists j. rewrite H. exact Hj.
Qed.

Lemma subscriber_loop_full (evs : list Event) (s : SubState) (w : World) :
  length (buffer s) < BATCH_SIZE ->
  (exists j, start s = clock j) ->
  Forall (fun b => length b = BATCH_SIZE)
         (fst (subscriber_loop clock (map Got evs) s w)) /\
  (forall s' w',
      snd (subscriber_loop clock (map Got evs) s w) = Ok (s', w') ->
      length (buffer s') < BATCH_SIZE).
Proof.
  revert s w. induction evs as [|e evs IH]; intros s w Hlen Hstart.
  - simpl. split; [constructor|]. intros s' w' H. inversion H; subst. exact Hlen.
  - cbn [map subscriber_loop].
    destruct (got_turn_full e s w Hlen Hstart) as [Hb Hnext].
    destruct (subscriber_iter clock (Got e) s w) as [flushed [[s1 w1]|x]];
      simpl in Hb, Hnext.
    + destruct (Hnext s1 w1 eq_refl) as [Hlen1 Hstart1].
      specialize (IH s1 w1 Hlen1 Hstart1).
      destruct (subscriber_loop clock (map Got evs) s1 w1) as [batches r].
      simpl in *. destruct IH as [IHb IHn]. split; [|exact IHn].
      destruct flushed as [b|]; [constructor; [apply Hb; reflexivity|]|];
        exact IHb.
    + simpl. split; [|discriminate].
      destruct flushed as [b|]; constructor;
        [apply Hb; reflexivity | constructor].
Qed.

End SizeTrigger.

(** X8: with events always at hand and a clock on which no two readings are
    [MAX_DELAY] apart, the loop cuts the stream into full batches: every
    batch flushed holds exactly [BATCH_SIZE] events, and when the loop
    returns it has flushed [length evs / BATCH_SIZE] batches and keeps the
    remaining [length evs mod BATCH_SIZE] events in the buffer. *)
Theorem full_batches_without_delay :
  forall (L : Libraries) (clock : nat -> float)
         (evs : list Event) (w : World),
    (forall i j, (MAX_DELAY <=? clock i - clock j)%float = false) ->
    Forall (fun b => length b = BATCH_SIZE)
           (fst (subscriber clock (map Got evs) w)) /\
    (forall s w',
        snd (subscriber clock (map Got evs) w) = Ok (s, w') ->
        length (fst (subscriber clock (map Got evs) w))
          = length evs / BATCH_SIZE /\
        length (buffer s) = length evs mod BATCH_SIZE).
Proof.
  intros L clock evs w Hclk.
  unfold subscriber, subscriber_init, time_time. cbn beta iota zeta.
  match goal with
  | |- context [subscriber_loop clock (map Got evs) ?a ?b] =>
      set (s0 := a); set (w0 := b)
  end.
  assert (Hlen0 : length (buffer s0) < BATCH_SIZE)
    by (unfold BATCH_SIZE; simpl; lia).
  assert (Hstart0 : exists j, start s0 = clock j)
    by (exists (ticks w); reflexivity).
  destruct (subscriber_loop_full clock Hclk evs s0 w0 Hlen0 Hstart0)
    as [Hfull Hrest].
  split; [exact Hfull|].
  intros s w' H. specialize (Hrest s w' H).
  pose proof (subscriber_loop_events clock (map Got evs) s0 w0) as Hev.
  destruct (subscriber_loop clock (map Got evs) s0 w0) as [batches r].
  cbn [fst snd] in *. subst r. rewrite events_of_map_Got in Hev.
  simpl in Hev.
  assert (Hsum : length evs = BATCH_SIZE * length batches + length (buffer s)).
  { rewrite <- Hev, length_app, (concat_length_uniform BATCH_SIZE) by exact Hfull.
    reflexivity. }
  split.
  - apply Nat.div_unique with (r := length (buffer s)); assumption.
  - apply Nat.mod_unique with (q := length batches); assumption.
Qed.

Lemma full_batches_without_delay_witness :
  (forall i j, (MAX_DELAY <=? (fun _ : nat => 3%float) i
                              - (fun _ : nat => 3%float) j)%float = false) /\
  Forall (fun b => length b = BATCH_SIZE)
         (fst (subscriber (L := demo_libraries) (fun _ => 3%float)
                 (map Got demo_events) (fresh 0))).
Proof.
  assert (H : forall i j : nat,
             (MAX_DELAY <=? (fun _ : nat => 3%float) i
                            - (fun _ : nat => 3%float) j)%float = false)
    by (intros i j; reflexivity).
  split; [exact H|].
  apply (full_batches_without_delay demo_libraries (fun _ => 3%float)
           demo_events (fresh 0) H).
Defined.

Section Survival.

Context {L : Libraries}.
Variable clock : nat -> float.

Lemma deque_append_Forall {A : Type} (P : A -> Prop) (d : deque A) (x : A) :
  Forall P (deque_items d) -> P x ->
  Forall P (deque_items (deque_append d x)).
Proof.
  intros Hd Hx.
  assert (Hall : Forall P (deque_items d ++ [x]))
    by (apply Forall_app; split; [exact Hd | constructor; [exact Hx | constructor]]).
  unfold deque_append. destruct (maxlen d) as [m|]; simpl; [|exact Hall].
  destruct (m <? length (deque_items d ++ [x])); [|exact Hall].
  destruct (deque_items d ++ [x]) as [|y l]; simpl; [constructor|].
  inversion Hall; assumption.
Qed.

Lemma push_all_Forall {A : Type} (P : A -> Prop) (xs : list A) (d : deque A) :
  Forall P (deque_items d) -> Forall P xs ->
  Forall P (deque_items (push_all d xs)).
Proof.
  unfold push_all. revert d.
  induction xs as [|x xs IH]; intros d Hd Hxs; simpl; [exact Hd|].
  inversion Hxs; subst. apply IH; [|assumption].
  apply deque_append_Forall; assumption.
Qed.

Lemma mapM_py_round_accepts (xs : list float) :
  Forall (fun v => roundable v = true) xs ->
  exists bs, mapM py_round xs = Ok bs.
Proof.
  unfold roundable. induction xs as [|x xs IH]; intros H; simpl.
  - exists []. reflexivity.
  - inversion H as [|? ? Hx Hxs]; subst.
    destruct (py_round x) as [z|e]; [|discriminate].
    destruct (IH Hxs) as [bs Ebs]. rewrite Ebs. simpl.
    exists (z :: bs). reflexivity.
Qed.

Lemma deque_append_nonempty {A : Type} (d : deque A) (x : A) (m : nat) :
  maxlen d = Some (S m) -> deque_items (deque_append d x) <> [].
Proof.
  intros Hm. rewrite (deque_append_raw d x (S m) Hm).
  destruct (Nat.ltb_spec (S m) (S (length (deque_items d)))) as [H|H].
  - destruct (deque_items d) as [|y l]; simpl in *; [lia|].
    destruct l; discriminate.
  - destruct (deque_items d); discriminate.
Qed.

(** A window with a positive bound is not empty once something has been
    pushed. *)
Lemma push_all_nonempty {A : Type} (xs : list A) (d : deque A) (m : nat) :
  maxlen d = Some (S m) -> xs <> [] -> deque_items (push_all d xs) <> [].
Proof.
  intros Hm Hxs.
  destruct (exists_last Hxs) as (xs' & x & ->).
  unfold push_all. rewrite fold_left_app. simpl.
  apply deque_append_nonempty with (m := m).
  fold (push_all d xs'). rewrite push_all_maxlen. exact Hm.
Qed.

Lemma latencies_of_nonempty (t : nat) (events : list Event) :
  events <> [] -> latencies_of clock t events <> [].
Proof. destruct events; [contradiction | discriminate]. Qed.

(** A fold raises nothing but the division error. *)
Lemma foldM_process_event_raises (events : list Event) (w : World) (x : exn) :
  foldM (process_event clock) events w = Raise x -> x = ZeroDivisionError.
Proof.
  revert w. induction events as [|e events IH]; intros w; simpl; [discriminate|].
  destruct (process_event clock e w) as [w1|y] eqn:E; simpl.
  - apply IH.
  - intros H. inversion H; subst. unfold process_event in E.
    unfold py_truediv in E.
    destruct (n w + 1 =? 0)%Z; simpl in E; [congruence | discriminate].
Qed.

(** With a latency window of positive bound the aggregation of a batch that
    is not empty raises no [IndexError], and the bound stays. *)
Lemma process_batch_latencies (events : list Event) (w : World) (m : nat) :
  maxlen (latency_window w) = Some (S m) ->
  events <> [] ->
  process_batch clock events w <> Raise IndexError /\
  (forall s w', process_batch clock events w = Ok (s, w') ->
                maxlen (latency_window w') = Some (S m)).
Proof.
  intros Hm Hev. unfold process_batch.
  destruct (foldM (process_event clock) events w) as [w1|x] eqn:Efold; simpl.
  - pose proof (foldM_process_event_fields clock events w w1 Efold)
      as (_ & _ & _ & Hl).
    assert (Hne : snapshot (latency_window w1) <> []).
    { unfold snapshot. rewrite Hl.
      apply push_all_nonempty with (m := m);
        [exact Hm | apply latencies_of_nonempty; exact Hev]. }
    destruct (summarise w1) as [s1|x] eqn:Esum; simpl.
    + split; [discriminate|]. intros s w' H. inversion H; subst.
      rewrite Hl, push_all_maxlen. exact Hm.
    + split; [|discriminate]. intros H. inversion H; subst.
      destruct (summarise_raises _ _ Esum) as [Etop | [_ Hnil]].
      * destruct (top_buckets_raises _ _ Etop); discriminate.
      * contradiction.
  - split; [|discriminate]. intros H. inversion H; subst.
    apply foldM_process_event_raises in Efold. discriminate.
Qed.

Lemma summarise_accepts (w : World) :
  Forall (fun v => roundable v = true) (snapshot (value_window w)) ->
  snapshot (latency_window w) <> [] ->
  exists s, summarise w = Ok s.
Proof.
  intros Hwin Hne.
  destruct (mapM_py_round_accepts _ Hwin) as [bs Ebs].
  destruct (variance_of_ok w) as [v Ev].
  unfold summarise, top_buckets, percentile. rewrite Ebs. simpl.
  rewrite Ev. simpl.
  destruct (snapshot (latency_window w)); [contradiction|]. simpl.
  eexists. reflexivity.
Qed.

(** The state keeps a counter that is not negative, a value window whose
    values [round] accepts and a latency window of positive bound. *)
Lemma process_batch_accepts (events : list Event) (w : World) :
  (0 <= n w)%Z ->
  Forall (fun v => roundable v = true) (snapshot (value_window w)) ->
  maxlen (latency_window w) = Some MAX_WINDOW_SIZE ->
  events <> [] ->
  Forall (fun e => roundable (value e) = true) events ->
  exists s w',
    process_batch clock events w = Ok (s, w') /\
    (0 <= n w')%Z /\
    Forall (fun v => roundable v = true) (snapshot (value_window w')) /\
    maxlen (latency_window w') = Some MAX_WINDOW_SIZE.
Proof.
  intros Hn Hwin Hm Hne Hev.
  destruct (foldM_process_event_ok clock events w Hn)
    as (w' & Efold & Hn' & _ & Hv & Hl).
  assert (Hwin' : Forall (fun v => roundable v = true)
                         (snapshot (value_window w'))).
  { unfold snapshot in *. rewrite Hv. apply push_all_Forall; [exact Hwin|].
    apply Forall_forall. intros v Hin. apply in_map_iff in Hin.
    destruct Hin as (e & <- & He). rewrite Forall_forall in Hev.
    apply Hev, He. }
  assert (Hlat : snapshot (latency_window w') <> []).
  { unfold snapshot. rewrite Hl.
    apply push_all_nonempty with (m := 999);
      [exact Hm | apply latencies_of_nonempty; exact Hne]. }
  destruct (summarise_accepts w' Hwin' Hlat) as [s Es].
  unfold process_batch. rewrite Efold. simpl. rewrite Es. simpl.
  exists s, w'. split; [reflexivity|]. split; [lia|]. split; [exact Hwin'|].
  rewrite Hl, push_all_maxlen. exact Hm.
Qed.

Lemma flush_accepts (buf : list Event) (w : World) :
  (0 <= n w)%Z ->
  Forall (fun v => roundable v = true) (snapshot (value_window w)) ->
  maxlen (latency_window w) = Some MAX_WINDOW_SIZE ->
  buf <> [] ->
  Forall (fun e => roundable (value e) = true) buf ->
  exists s' w',
    flush clock buf w = Ok (s', w') /\
    buffer s' = [] /\
    (0 <= n w')%Z /\
    Forall (fun v => roundable v = true) (snapshot (value_window w')) /\
    maxlen (latency_window w') = Some MAX_WINDOW_SIZE.
Proof.
  intros Hn Hwin Hm Hne Hbuf.
  destruct (process_batch_accepts buf w Hn Hwin Hm Hne Hbuf)
    as (sm & w1 & E & Hn1 & Hwin1 & Hm1).
  unfold flush. rewrite E. simpl.
  eexists. eexists. split; [reflexivity|]. simpl.
  split; [reflexivity | split; [|split]; assumption].
Qed.

Lemma subscriber_iter_accepts (t : Taken) (s : SubState) (w : World) :
  (0 <= n w)%Z ->
  Forall (fun v => roundable v = true) (snapshot (value_window w)) ->
  maxlen (latency_window w) = Some MAX_WINDOW_SIZE ->
  Forall (fun e => roundable (value e) = true) (buffer s) ->
  Forall (fun e => roundable (value e) = true) (events_of [t]) ->
  exists s' w',
    snd (subscriber_iter clock t s w) = Ok (s', w') /\
    (0 <= n w')%Z /\
    Forall (fun v => roundable v = true) (snapshot (value_window w')) /\
    maxlen (latency_window w') = Some MAX_WINDOW_SIZE /\
    Forall (fun e => roundable (value e) = true) (buffer s').
Proof.
  intros Hn Hwin Hm Hbuf Ht.
  assert (Hall : Forall (fun e => roundable (value e) = true)
                        (buffer s ++ events_of [t]))
    by (apply Forall_app; split; assumption).
  assert (Hflush : forall buf w0,
             (0 <= n w0)%Z ->
             Forall (fun v => roundable v = true) (snapshot (value_window w0)) ->
             maxlen (latency_window w0) = Some MAX_WINDOW_SIZE ->
             buf <> [] ->
             Forall (fun e => roundable (value e) = true) buf ->
             exists s' w',
               flush clock buf w0 = Ok (s', w') /\
               (0 <= n w')%Z /\
               Forall (fun v => roundable v = true)
                      (snapshot (value_window w')) /\
               maxlen (latency_window w') = Some MAX_WINDOW_SIZE /\
               Forall (fun e => roundable (value e) = true) (buffer s')).
  { intros buf w0 H1 H2 H3 H4 H5.
    destruct (flush_accepts buf w0 H1 H2 H3 H4 H5)
      as (s' & w' & E & Hb & Hn' & Hw' & Hm').
    exists s', w'. rewrite Hb. repeat split; try assumption. constructor. }
  assert (Hsnoc : forall e : Event, buffer s ++ [e] <> [])
    by (intros e; destruct (buffer s); discriminate).
  unfold subscriber_iter. destruct t as [event|]; simpl in Hall.
  - destruct (BATCH_SIZE <=? length (buffer s ++ [event])); simpl.
    + apply Hflush; auto.
    + destruct (MAX_DELAY <=? clock (ticks w) - start s)%float; simpl.
      * apply Hflush; auto.
      * eexists. eexists. split; [reflexivity|]. simpl.
        repeat split; assumption.
  - destruct (buffer s) as [|e l] eqn:Eb; simpl.
    + exists s, w. rewrite Eb. repeat split; assumption.
    + apply Hflush; auto. discriminate.
Qed.

Lemma subscriber_loop_accepts (takes : list Taken) (s : SubState) (w : World) :
  (0 <= n w)%Z ->
  Forall (fun v => roundable v = true) (snapshot (value_window w)) ->
  maxlen (latency_window w) = Some MAX_WINDOW_SIZE ->
  Forall (fun e => roundable (value e) = true) (buffer s) ->
  Forall (fun e => roundable (value e) = true) (events_of takes) ->
  exists s' w', snd (subscriber_loop clock takes s w) = Ok (s', w').
Proof.
  revert s w. induction takes as [|t takes IH]; intros s w Hn Hwin Hm Hbuf Hev.
  - exists s, w. reflexivity.
  - rewrite events_of_cons in Hev. apply Forall_app in Hev.
    destruct Hev as [Ht Hrest].
    destruct (subscriber_iter_accepts t s w Hn Hwin Hm Hbuf Ht)
      as (s1 & w1 & E & Hn1 & Hwin1 & Hm1 & Hbuf1).
    cbn [subscriber_loop].
    destruct (subscriber_iter clock t s w) as [flushed r]. simpl in E. subst r.
    destruct (IH s1 w1 Hn1 Hwin1 Hm1 Hbuf1 Hrest) as (s' & w' & E').
    destruct (subscriber_loop clock takes s1 w1) as [batches r].
    simpl in *. exists s', w'. exact E'.
Qed.

(** From a latency window of positive bound the loop never ends in an
    [IndexError]: it aggregates no empty batch. *)
Lemma flush_latencies (buf : list Event) (w : World) (m : nat) :
  maxlen (latency_window w) = Some (S m) ->
  buf <> [] ->
  flush clock buf w <> Raise IndexError /\
  (forall s' w', flush clock buf w = Ok (s', w') ->
                 maxlen (latency_window w') = Some (S m)).
Proof.
  intros Hm Hne.
  destruct (process_batch_latencies buf w m Hm Hne) as [Hsafe Hnext].
  unfold flush. destruct (process_batch clock buf w) as [[sm w1]|x]; simpl.
  - split; [discriminate|]. intros s' w' H. inversion H; subst. simpl.
    apply (Hnext sm). reflexivity.
  - split; [congruence | discriminate].
Qed.

Lemma subscriber_iter_latencies (t : Taken) (s : SubState) (w : World)
      (m : nat) :
  maxlen (latency_window w) = Some (S m) ->
  snd (subscriber_iter clock t s w) <> Raise IndexError /\
  (forall s' w', snd (subscriber_iter clock t s w) = Ok (s', w') ->
                 maxlen (latency_window w') = Some (S m)).
Proof.
  intros Hm.
  assert (Hsnoc : forall e : Event, buffer s ++ [e] <> [])
    by (intros e; destruct (buffer s); discriminate).
  unfold subscriber_iter. destruct t as [event|].
  - destruct (BATCH_SIZE <=? length (buffer s ++ [event])); simpl.
    + apply flush_latencies; auto.
    + destruct (MAX_DELAY <=? clock (ticks w) - start s)%float; simpl.
      * apply flush_latencies; auto.
      * split; [discriminate|]. intros s' w' H. inversion H; subst. exact Hm.
  - destruct (buffer s) as [|e l]; simpl.
    + split; [discriminate|]. intros s' w' H. inversion H; subst. exact Hm.
    + apply flush_latencies; [exact Hm | discriminate].
Qed.

Lemma subscriber_loop_latencies (takes : list Taken) (s : SubState)
      (w : World) (m : nat) :
  maxlen (latency_window w) = Some (S m) ->
  snd (subscriber_loop clock takes s w) <> Raise IndexError.
Proof.
  revert s w. induction takes as [|t takes IH]; intros s w Hm; simpl.
  - discriminate.
  - destruct (subscriber_iter_latencies t s w m Hm) as [Hsafe Hnext].
    destruct (subscriber_iter clock t s w) as [flushed [[s' w']|e]];
      simpl in *.
    + specialize (IH s' w' (Hnext s' w' eq_refl)).
      destruct (subscriber_loop clock takes s' w') as [batches r].
      simpl in *. exact IH.
    + exact Hsafe.
Qed.

Lemma subscriber_no_index_error (takes : list Taken) (t : nat) :
  snd (subscriber clock takes (fresh t)) <> Raise IndexError.
Proof.
  unfold subscriber, subscriber_init. simpl.
  apply subscriber_loop_latencies with (m := 999). reflexivity.
Qed.

End Survival.

(** X9: started on the state the module body sets up, the loop never dies
    as long as every event taken has a user id that [str] prints (at most
    [int_max_str_digits] digits) and a value that [round] accepts (no [nan],
    no infinity): every turn returns, whatever the timestamps, timeouts and
    clock are. *)
Theorem subscriber_survives_roundable_values :
  forall (L : Libraries) (clock : nat -> float)
         (takes : list Taken) (t : nat),
    Forall (fun e => str_fits (user_id e) = true) (events_of takes) ->
    Forall (fun e => roundable (value e) = true) (events_of takes) ->
    exists s w', snd (subscriber clock takes (fresh t)) = Ok (s, w').
Proof.
  intros L clock takes t _ H. unfold subscriber, subscriber_init. simpl.
  apply subscriber_loop_accepts; simpl; try constructor; try lia. exact H.
Qed.

Lemma subscriber_survives_roundable_values_witness :
  (Forall (fun e => str_fits (user_id e) = true)
          (events_of (map Got demo_events ++ [TimedOut])) /\
   Forall (fun e => roundable (value e) = true)
          (events_of (map Got demo_events ++ [TimedOut]))) /\
  exists s w',
    snd (subscriber (L := demo_libraries) (fun _ => 3%float)
           (map Got demo_events ++ [TimedOut]) (fresh 0)) = Ok (s, w').
Proof.
  assert (H1 : Forall (fun e => str_fits (user_id e) = true)
                      (events_of (map Got demo_events ++ [TimedOut])))
    by (repeat constructor).
  assert (H2 : Forall (fun e => roundable (value e) = true)
                      (events_of (map Got demo_events ++ [TimedOut])))
    by (repeat constructor).
  split; [split; assumption|].
  exact (subscriber_survives_roundable_values demo_libraries
           (fun _ => 3%float) (map Got demo_events ++ [TimedOut]) 0 H1 H2).
Defined.

Section LoopEnd.

Context {L : Libraries}.
Variable clock : nat -> float.

(** Once a turn has raised, what the queue delivers later plays no part. *)
Lemma subscriber_loop_raise (takes more : list Taken) (s : SubState)
      (w : World) (batches : list (list Event)) (x : exn) :
  subscriber_loop clock takes s w = (batches, Raise x) ->
  subscriber_loop clock (takes ++ more) s w = (batches, Raise x).
Proof.
  revert s w batches. induction takes as [|t takes IH]; intros s w batches.
  - simpl. intros H. inversion H.
  - cbn [app subscriber_loop].
    destruct (subscriber_iter clock t s w) as [flushed [[s1 w1]|y]].
    + specialize (IH s1 w1).
      destruct (subscriber_loop clock takes s1 w1) as [batches1 r] eqn:E1.
      intros H. inversion H; subst.
      rewrite (IH batches1 eq_refl). reflexivity.
    + intros H. exact H.
Qed.

End LoopEnd.

(** X10: an exception of the aggregation ends the loop for good: it is not
    caught, so whatever is taken afterwards is neither buffered nor flushed.
    Started on the state the module body sets up, that exception is the
    [ValueError] or [OverflowError] of [round]. *)
Theorem exception_ends_the_loop :
  forall (L : Libraries) (clock : nat -> float) (takes more : list Taken)
         (t : nat) (batches : list (list Event)) (x : exn),
    subscriber clock takes (fresh t) = (batches, Raise x) ->
    subscriber clock (takes ++ more) (fresh t) = (batches, Raise x) /\
    (x = ValueError \/ x = OverflowError).
Proof.
  intros L clock takes more t batches x H. split.
  - unfold subscriber, subscriber_init in *. simpl in *.
    apply subscriber_loop_raise. exact H.
  - pose proof (subscriber_no_zero_division clock takes t) as Hz.
    pose proof (subscriber_no_index_error clock takes t) as Hi.
    rewrite H in Hz, Hi. simpl in Hz, Hi.
    destruct x;
      [contradiction Hz | left | right | contradiction Hi]; reflexivity.
Qed.

Lemma exception_ends_the_loop_witness :
  subscriber (L := demo_libraries) (fun _ => 3%float)
    (map Got nan_events ++ [TimedOut]) (fresh 0)
    = ([nan_events], Raise ValueError) /\
  subscriber (L := demo_libraries) (fun _ => 3%float)
    ((map Got nan_events ++ [TimedOut]) ++ map Got demo_events) (fresh 0)
    = ([nan_events], Raise ValueError).
Proof.
  assert (H : subscriber (L := demo_libraries) (fun _ => 3%float)
                (map Got nan_events ++ [TimedOut]) (fresh 0)
              = ([nan_events], Raise ValueError))
    by (vm_compute; reflexivity).
  split; [exact H|].
  apply (exception_ends_the_loop demo_libraries (fun _ => 3%float)
           (map Got nan_events ++ [TimedOut]) (map Got demo_events) 0
           [nan_events] ValueError H).
Defined.

(** * Latencies *)

Section LatencyFacts.

Context {L : Libraries}.
Variables clock1 clock2 : nat -> float.

Lemma tl_length {A : Type} (l : list A) : length (tl l) = length l - 1.
Proof. destruct l; simpl; lia. Qed.

(** Two windows of the same bound that hold equally many items still do
    after an [append] to each, whatever is appended. *)
Lemma deque_append_same_length {A : Type} (d1 d2 : deque A) (x y : A) :
  maxlen d1 = maxlen d2 ->
  length (deque_items d1) = length (deque_items d2) ->
  maxlen (deque_append d1 x) = maxlen (deque_append d2 y) /\
  length (deque_items (deque_append d1 x)) =
    length (deque_items (deque_append d2 y)).
Proof.
  intros Hm Hlen. rewrite !deque_append_maxlen. split; [exact Hm|].
  destruct (maxlen d2) as [m|] eqn:E2.
  - rewrite (deque_append_raw d1 x m Hm), (deque_append_raw d2 y m E2), Hlen.
    destruct (m <? S (length (deque_items d2)));
      rewrite ?tl_length, !length_app, Hlen; reflexivity.
  - unfold deque_append. rewrite Hm, E2. simpl.
    rewrite !length_app, Hlen. reflexivity.
Qed.

Lemma process_event_same (e1 e2 : Event) (w1 w2 : World) :
  same_but_latencies w1 w2 ->
  user_id e1 = user_id e2 ->
  value e1 = value e2 ->
  match process_event clock1 e1 w1, process_event clock2 e2 w2 with
  | Ok a, Ok b => same_but_latencies a b
  | Raise x, Raise y => x = y
  | _, _ => False
  end.
Proof.
  destruct w1 as [k1 h1 c1 v1 l1 n1 m1 q1], w2 as [k2 h2 c2 v2 l2 n2 m2 q2].
  unfold same_but_latencies, process_event, snapshot. simpl.
  intros (Hh & Hc & Hv & Hn & Hm & Hq & Hml & Hll) Hid Hval. subst.
  rewrite Hid, Hval.
  destruct (py_truediv (value e2 - m2)%float (n2 + 1)); simpl;
    [|reflexivity].
  repeat split; apply deque_append_same_length; assumption.
Qed.

Lemma foldM_process_event_same (events1 events2 : list Event)
      (w1 w2 : World) :
  same_but_latencies w1 w2 ->
  map user_id events1 = map user_id events2 ->
  map value events1 = map value events2 ->
  match foldM (process_event clock1) events1 w1,
        foldM (process_event clock2) events2 w2 with
  | Ok a, Ok b => same_but_latencies a b
  | Raise x, Raise y => x = y
  | _, _ => False
  end.
Proof.
  revert events2 w1 w2.
  induction events1 as [|e1 events1 IH]; intros [|e2 events2] w1 w2 Hs Hid Hval;
    simpl in Hid, Hval; try discriminate.
  - simpl. exact Hs.
  - injection Hid as Hid1 Hids. injection Hval as Hval1 Hvals. simpl.
    pose proof (process_event_same e1 e2 w1 w2 Hs Hid1 Hval1) as H.
    destruct (process_event clock1 e1 w1) as [a|x],
             (process_event clock2 e2 w2) as [b|y]; simpl;
      try contradiction; [|exact H].
    apply IH; assumption.
Qed.

(** Whether the summary raises, and what, does not depend on the latencies
    held. *)
Lemma summarise_same (a b : World) (x : exn) :
  same_but_latencies a b ->
  summarise a = Raise x <-> summarise b = Raise x.
Proof.
  destruct a as [k1 h1 c1 v1 l1 n1 m1 q1], b as [k2 h2 c2 v2 l2 n2 m2 q2].
  unfold same_but_latencies, summarise, top_buckets, variance_of, percentile,
    snapshot.
  simpl. intros (Hh & Hc & Hv & Hn & Hm & Hq & Hml & Hll). subst.
  destruct (mapM py_round (deque_items v2)); simpl; [|tauto].
  destruct (if (1 <? n2)%Z then py_truediv q2 (n2 - 1) else Ok 0%float);
    simpl; [|tauto].
  destruct (deque_items l1), (deque_items l2); simpl in *;
    try discriminate; split; intros H; inversion H; reflexivity.
Qed.

Lemma process_batch_same (events1 events2 : list Event) (w1 w2 : World)
      (x : exn) :
  same_but_latencies w1 w2 ->
  map user_id events1 = map user_id events2 ->
  map value events1 = map value events2 ->
  process_batch clock1 events1 w1 = Raise x <->
  process_batch clock2 events2 w2 = Raise x.
Proof.
  intros Hs Hid Hval.
  pose proof (foldM_process_event_same events1 events2 w1 w2 Hs Hid Hval) as H.
  unfold process_batch.
  destruct (foldM (process_event clock1) events1 w1) as [a|y1],
           (foldM (process_event clock2) events2 w2) as [b|y2];
    simpl; try contradiction.
  - pose proof (summarise_same a b x H) as Hx.
    destruct (summarise a) as [sa|ya], (summarise b) as [sb|yb]; simpl.
    + split; discriminate.
    + destruct Hx as [_ Hx]. split; [discriminate|].
      intros E. inversion E; subst. specialize (Hx eq_refl). discriminate.
    + destruct Hx as [Hx _]. split; [|discriminate].
      intros E. inversion E; subst. specialize (Hx eq_refl). discriminate.
    + split; intros E; inversion E; subst.
      * pose proof (proj1 Hx eq_refl) as E'. inversion E'. reflexivity.
      * pose proof (proj2 Hx eq_refl) as E'. inversion E'. reflexivity.
  - subst. tauto.
Qed.

End LatencyFacts.

(** C2, as the code has it: the latency of every event is the clock reading
    minus the event's timestamp, and the latency window receives it as
    computed, negative or not; nothing counts a fault.  No latency aborts
    the aggregation: whether [process_batch] raises, and what, is the same
    for any other timestamps and any other clock. *)
Theorem latency_pushed_unclamped :
  forall (L : Libraries) (clock : nat -> float)
         (events : list Event) (w : World),
    (forall w',
        foldM (process_event clock) events w = Ok w' ->
        latency_window w' =
          push_all (latency_window w)
                   (latencies_of clock (ticks w) events)) /\
    (forall (clock2 : nat -> float) (events2 : list Event) (w2 : World)
            (x : exn),
        same_but_latencies w w2 ->
        map user_id events = map user_id events2 ->
        map value events = map value events2 ->
        process_batch clock events w = Raise x <->
        process_batch clock2 events2 w2 = Raise x).
Proof.
  intros L clock events w. split.
  - intros w' H. apply foldM_process_event_fields in H. apply H.
  - intros clock2 events2 w2 x Hs Hid Hval.
    apply process_batch_same; assumption.
Qed.

Lemma latency_pushed_unclamped_witness :
  (same_but_latencies (fresh (L := demo_libraries) 0) (fresh 2) /\
   map user_id [mk_event 7 PrimFloat.nan 5] = map user_id [mk_event 7 PrimFloat.nan 1] /\
   map value [mk_event 7 PrimFloat.nan 5] = map value [mk_event 7 PrimFloat.nan 1]) /\
  (process_batch (L := demo_libraries) (fun _ => 3%float)
     [mk_event 7 PrimFloat.nan 5] (fresh 0) = Raise ValueError <->
   process_batch (L := demo_libraries) (fun _ => 9%float)
     [mk_event 7 PrimFloat.nan 1] (fresh 2) = Raise ValueError).
Proof.
  assert (H1 : same_but_latencies (fresh (L := demo_libraries) 0) (fresh 2))
    by (repeat split).
  assert (H2 : map user_id [mk_event 7 PrimFloat.nan 5] = map user_id [mk_event 7 PrimFloat.nan 1])
    by reflexivity.
  assert (H3 : map value [mk_event 7 PrimFloat.nan 5] = map value [mk_event 7 PrimFloat.nan 1])
    by reflexivity.
  split; [repeat split; assumption|].
  exact (proj2 (latency_pushed_unclamped demo_libraries (fun _ => 3%float)
                  [mk_event 7 PrimFloat.nan 5] (fresh 0))
               (fun _ => 9%float) [mk_event 7 PrimFloat.nan 1] (fresh 2) ValueError
               H1 H2 H3).
Defined.

(** C2 as claimed fails: an event stamped 5 and handled when the clock reads
    3 leaves the latency -2 in the window, not 0. *)
Lemma negative_latency_not_clamped :
  result_map (fun w => snapshot (latency_window w))
    (process_event (L := demo_libraries) (fun _ => 3%float)
       (mk_event 7 50 5) (fresh 0))
  = Ok [(-2)%float] /\
  ((-2) <? 0)%float = true.
Proof. split; reflexivity. Qed.
